(** * The command queue of the BSS bridge server

    A shallow embedding of [lib/queue.js] (class [CommandQueue]) and of the
    [POST /api/complete] handler, with the properties of the queue engine
    stated over it.

    Conventions of the embedding:
    - a JavaScript [Map] whose iteration order is observed ([commands]) is an
      insertion-ordered association list ([OMap.t]); the [playerCooldowns]
      map, of which only lookups, updates and the size are observed, is a
      [gmap];
    - timestamps are integers ([Z]); every call of [Date.now()] is an explicit
      argument [now] of the operation that makes it;
    - the value of [crypto.randomUUID()] is an explicit argument [uuid] of
      [addCommand]; runs of the engine draw it from a generator
      [randomUUID : nat -> string];
    - a method that mutates [this] returns its result paired with the new
      state. *)

From stdpp Require Import gmap strings list fin_maps pretty.
From Stdlib Require Import ZArith Lia.

#[local] Open Scope Z_scope.

(** ** Insertion-ordered maps with string keys (JavaScript [Map]) *)

Module OMap.
Section omap.
Context {V : Type}.

Abbreviation t := (list (string * V)).

Definition empty : t := [].

(** [Map.prototype.get] *)
Fixpoint get (k : string) (m : t) : option V :=
  match m with
  | [] => None
  | (k', v) :: m' => if decide (k = k') then Some v else get k m'
  end.

(** [Map.prototype.set]: an existing key keeps its position, a new key
    goes to the end. *)
Fixpoint set (k : string) (v : V) (m : t) : t :=
  match m with
  | [] => [(k, v)]
  | (k', v') :: m' =>
      if decide (k = k') then (k, v) :: m' else (k', v') :: set k v m'
  end.

(** [Map.prototype.delete] *)
Definition delete (k : string) (m : t) : t :=
  filter (λ e : string * V, e.1 ≠ k) m.

(** [Map.prototype.size] *)
Definition size (m : t) : Z := Z.of_nat (length m).

Definition keys (m : t) : list string := m.*1.

(** [Map.prototype.values], in insertion order *)
Definition values (m : t) : list V := m.*2.

(** [m.values().next().value] *)
Definition first (m : t) : option V := head (values m).

(** A [Map] holds every key once. *)
Definition wf (m : t) : Prop := NoDup (keys m).
End omap.

Abbreviation t V := (list (string * V)) (only parsing).
End OMap.

(** ** Data model *)

Module Command.
Record t : Type := mk {
  id : string;
  type : string;
  player : string;
  timestamp : Z;
  attempts : Z;
  createdAt : Z;
  expiresAt : Z
}.
End Command.

Record Config : Type := {
  maxQueueSize : Z;
  commandExpirationMs : Z;
  duplicateCooldownMs : Z;
  cleanupIntervalMs : Z
}.

Record CommandQueue : Type := {
  commands : OMap.t Command.t;
  playerCooldowns : gmap string Z;
  config : Config
}.

(** The three environment variables after [parseInt]; [None] stands for
    [NaN] (variable unset or not a number). *)
Record Env : Type := {
  MAX_QUEUE_SIZE : option Z;
  COMMAND_EXPIRATION_MS : option Z;
  DUPLICATE_COOLDOWN_MS : option Z
}.

(** [parseInt(x) || d]: [NaN] and [0] are falsy. *)
Definition parseIntOr (x : option Z) (d : Z) : Z :=
  match x with
  | Some n => if decide (n = 0) then d else n
  | None => d
  end.

(** [constructor()]; the timer started by [startCleanup] is the [EvTick]
    event of the runs below. *)
Definition constructor (env : Env) : CommandQueue :=
  {| commands := OMap.empty;
     playerCooldowns := ∅;
     config :=
       {| maxQueueSize := parseIntOr (MAX_QUEUE_SIZE env) 50;
          commandExpirationMs := parseIntOr (COMMAND_EXPIRATION_MS env) 300000;
          duplicateCooldownMs := parseIntOr (DUPLICATE_COOLDOWN_MS env) 60000;
          cleanupIntervalMs := 30000 |} |}.

(** ** Results *)

Inductive ErrorKind : Type :=
| DUPLICATE_COMMAND
| QUEUE_FULL
| COMMAND_NOT_FOUND.

(** [{success: true, commandId, queuePosition}] or
    [{success: false, error, message}] *)
Inductive AddResult : Type :=
| AddSuccess (commandId : string) (queuePosition : Z)
| AddFailure (error : ErrorKind) (message : string).

(** The copy of a command that [pollCommand] hands out. *)
Record PolledCommand : Type := {
  polled_id : string;
  polled_type : string;
  polled_player : string;
  polled_timestamp : Z;
  polled_attempts : Z
}.

(** [{hasCommand: false}] or [{hasCommand: true, command}] *)
Inductive PollResult : Type :=
| NoCommand
| HasCommand (command : PolledCommand).

(** [{success: true, removed, commandId}] or
    [{success: false, error, message}] *)
Inductive CompleteResult : Type :=
| CompleteSuccess (removed : bool) (commandId : string)
| CompleteFailure (error : ErrorKind) (message : string).

Record Status : Type := {
  queueSize : Z;
  status_maxQueueSize : Z;
  cooldownCount : Z;
  oldestCommandAge : Z
}.

(** ** The operations of [CommandQueue] *)

(** [isDuplicateCommand(player, now)]; [!lastCommandTime] holds for a missing
    entry and for the number 0. *)
Definition isDuplicateCommand (player : string) (now : Z) (q : CommandQueue)
  : bool :=
  match playerCooldowns q !! player with
  | None => false
  | Some lastCommandTime =>
      if decide (lastCommandTime = 0) then false
      else bool_decide (now - lastCommandTime < duplicateCooldownMs (config q))
  end.

(** [addCommand(type, player, timestamp)], with [now] the value of
    [Date.now()] and [uuid] the value [generateCommandId()] returns when it
    is reached. *)
Definition addCommand (type player : string) (timestamp : Z)
    (now : Z) (uuid : string) (q : CommandQueue) : AddResult * CommandQueue :=
  if isDuplicateCommand player now q then
    (AddFailure DUPLICATE_COMMAND
       ("Command for player " +:+ player
          +:+ " already exists within cooldown period"), q)
  else if bool_decide (maxQueueSize (config q) ≤ OMap.size (commands q)) then
    (AddFailure QUEUE_FULL
       ("Queue is full (max " +:+ pretty (maxQueueSize (config q))
          +:+ " commands)"), q)
  else
    let commandId := uuid in
    let command :=
      {| Command.id := commandId;
         Command.type := type;
         Command.player := player;
         Command.timestamp := timestamp;
         Command.attempts := 0;
         Command.createdAt := now;
         Command.expiresAt := now + commandExpirationMs (config q) |} in
    let q' :=
      {| commands := OMap.set commandId command (commands q);
         playerCooldowns := <[player := now]> (playerCooldowns q);
         config := config q |} in
    (AddSuccess commandId (OMap.size (commands q')), q').

(** One round of the first loop of [cleanupExpiredCommands]; the test
    [now > command.expiresAt] is written [expiresAt < now]. *)
Definition sweepEntry (now : Z)
    (acc : OMap.t Command.t * gmap string Z) (e : string * Command.t)
  : OMap.t Command.t * gmap string Z :=
  if bool_decide (Command.expiresAt e.2 < now) then
    (OMap.delete e.1 acc.1, delete (Command.player e.2) acc.2)
  else acc.

(** [Array.from(this.commands.values()).some(cmd => cmd.player === player)] *)
Definition hasActiveCommand (player : string) (cmds : OMap.t Command.t)
  : bool :=
  existsb (λ cmd, bool_decide (Command.player cmd = player)) (OMap.values cmds).

(** [cleanupExpiredCommands()]. The first loop visits the entries the map
    holds when the loop starts (an entry only ever deletes itself); the
    second loop keeps a cooldown entry unless it is older than the cooldown
    and its player has no command left. *)
Definition cleanupExpiredCommands (now : Z) (q : CommandQueue) : CommandQueue :=
  let swept := foldl (sweepEntry now) (commands q, playerCooldowns q) (commands q) in
  {| commands := swept.1;
     playerCooldowns :=
       filter (λ e : string * Z,
                 ¬ (duplicateCooldownMs (config q) < now - e.2
                    ∧ hasActiveCommand e.1 swept.1 = false))
              swept.2;
     config := config q |}.

Definition snapshot (c : Command.t) : PolledCommand :=
  {| polled_id := Command.id c;
     polled_type := Command.type c;
     polled_player := Command.player c;
     polled_timestamp := Command.timestamp c;
     polled_attempts := Command.attempts c |}.

(** [pollCommand(deviceId)]; the body never reads [deviceId], which is left
    out. *)
Definition pollCommand (now : Z) (q : CommandQueue) : PollResult * CommandQueue :=
  let q' := cleanupExpiredCommands now q in
  match OMap.first (commands q') with
  | None => (NoCommand, q')
  | Some oldestCommand => (HasCommand (snapshot oldestCommand), q')
  end.

(** [completeCommand(commandId, success, error)] *)
Definition completeCommand (commandId : string) (success : bool)
    (error : option string) (q : CommandQueue) : CompleteResult * CommandQueue :=
  match OMap.get commandId (commands q) with
  | None =>
      (CompleteFailure COMMAND_NOT_FOUND
         ("Command " +:+ commandId +:+ " not found"), q)
  | Some command =>
      (CompleteSuccess true commandId,
       {| commands := OMap.delete commandId (commands q);
          playerCooldowns :=
            if success then delete (Command.player command) (playerCooldowns q)
            else playerCooldowns q;
          config := config q |})
  end.

(** [getOldestCommandAge()] *)
Definition getOldestCommandAge (now : Z) (q : CommandQueue) : Z :=
  match OMap.first (commands q) with
  | None => 0
  | Some oldestCommand => now - Command.createdAt oldestCommand
  end.

(** [getStatus()]: [now] is read by the sweep, [now'] afterwards by
    [getOldestCommandAge]. *)
Definition getStatus (now now' : Z) (q : CommandQueue) : Status * CommandQueue :=
  let q' := cleanupExpiredCommands now q in
  ({| queueSize := OMap.size (commands q');
      status_maxQueueSize := maxQueueSize (config q');
      cooldownCount := Z.of_nat (size (playerCooldowns q'));
      oldestCommandAge := getOldestCommandAge now' q' |}, q').

(** [clear()] *)
Definition clear (q : CommandQueue) : CommandQueue :=
  {| commands := OMap.empty; playerCooldowns := ∅; config := config q |}.

(** ** The [POST /api/complete] endpoint *)

(** The values a parsed JSON body can hold; [JsUndefined] is a missing
    field and [JsObject] any array or object. *)
Inductive JsValue : Type :=
| JsUndefined
| JsNull
| JsBool (b : bool)
| JsNumber (n : Z)
| JsString (s : string)
| JsObject.

(** [!!v] *)
Definition truthy (v : JsValue) : bool :=
  match v with
  | JsUndefined | JsNull => false
  | JsBool b => b
  | JsNumber n => bool_decide (n ≠ 0)
  | JsString s => bool_decide (s ≠ "")
  | JsObject => true
  end.

(** White space of [String.prototype.trim] among the 8-bit code units:
    TAB, LF, VT, FF, CR, SP and NBSP. *)
Definition isWhiteSpace (a : Ascii.ascii) : bool :=
  bool_decide (Ascii.nat_of_ascii a ∈ [9; 10; 11; 12; 13; 32; 160]%nat).

Fixpoint trimStart (s : string) : string :=
  match s with
  | EmptyString => EmptyString
  | String a s' => if isWhiteSpace a then trimStart s' else s
  end.

Definition trim (s : string) : string :=
  String.rev (trimStart (String.rev (trimStart s))).

Record CompleteBody : Type := {
  body_commandId : JsValue;
  body_success : JsValue;
  body_error : JsValue
}.

(** [req.method], [req.headers['x-api-key']] and [req.body] *)
Record Request : Type := {
  method : string;
  x_api_key : option string;
  body : option CompleteBody
}.

(** [{success: false, error, message}] or
    [{success: true, removed, commandId}] with an optional [message] *)
Inductive ResponseBody : Type :=
| ErrorBody (error : string) (message : string)
| CompletedBody (removed : bool) (commandId : string) (message : option string).

Record Response : Type := {
  status : Z;
  json : ResponseBody
}.

Definition nonEmpty (s : option string) : bool :=
  match s with
  | Some s => bool_decide (s ≠ "")
  | None => false
  end.

(** [apiKeyMiddleware] of [lib/auth.js], built with
    [required = !!process.env.API_KEY]; [None] is the call of [next()]. *)
Definition apiKeyMiddleware (apiKey : option string) (req : Request)
  : option Response :=
  let required := nonEmpty apiKey in
  if negb (nonEmpty apiKey) && negb required then None
  else if required && negb (nonEmpty apiKey) then
    Some {| status := 500;
            json := ErrorBody "SERVER_MISCONFIGURED"
              "API key authentication is required but not configured" |}
  else if required && negb (nonEmpty (x_api_key req)) then
    Some {| status := 401;
            json := ErrorBody "MISSING_API_KEY"
              "API key is required. Provide X-API-Key header." |}
  else if nonEmpty (x_api_key req) && bool_decide (x_api_key req ≠ apiKey) then
    Some {| status := 401;
            json := ErrorBody "INVALID_API_KEY" "Invalid API key provided" |}
  else None.

(** [const { commandId, success, error } = req.body || {}] *)
Definition bodyFields (req : Request) : JsValue * JsValue * JsValue :=
  match body req with
  | Some b => (body_commandId b, body_success b, body_error b)
  | None => (JsUndefined, JsUndefined, JsUndefined)
  end.

(** [typeof v === 'boolean'] and [typeof v === 'string'] *)
Definition isBoolean (v : JsValue) : bool :=
  match v with JsBool _ => true | _ => false end.

Definition isString (v : JsValue) : bool :=
  match v with JsString _ => true | _ => false end.

(** [v === null || v === undefined] *)
Definition isNullish (v : JsValue) : bool :=
  match v with JsUndefined | JsNull => true | _ => false end.

Definition badRequest (error message : string) : Response :=
  {| status := 400; json := ErrorBody error message |}.

(** The handler exported by [api/complete.js]: the authentication gate, then
    the checks of the body in the order of the source, then the call of the
    engine and the translation of its result. *)
Definition completeHandler (apiKey : option string) (req : Request)
    (q : CommandQueue) : Response * CommandQueue :=
  match apiKeyMiddleware apiKey req with
  | Some rejected => (rejected, q)
  | None =>
      let '(commandId, success, error) := bodyFields req in
      if bool_decide (method req ≠ "POST") then
        ({| status := 405;
            json := ErrorBody "METHOD_NOT_ALLOWED" "Only POST method is allowed" |}, q)
      else if negb (truthy commandId) || negb (isBoolean success) then
        (badRequest "MISSING_REQUIRED_FIELDS"
           "Required fields: commandId (string), success (boolean)", q)
      else
        match commandId with
        | JsString s =>
            if bool_decide (trim s = "") then
              (badRequest "INVALID_COMMAND_ID"
                 "Command ID must be a non-empty string", q)
            else if negb (isNullish error) && negb (isString error) then
              (badRequest "INVALID_ERROR_FIELD"
                 "Error field must be null or a string", q)
            else
              let error :=
                match error with JsString e => Some e | _ => None end in
              match completeCommand (trim s) (truthy success) error q with
              | (CompleteFailure COMMAND_NOT_FOUND _, q') =>
                  ({| status := 200;
                      json := CompletedBody false (trim s)
                        (Some "Command already completed or not found") |}, q')
              | (CompleteFailure _ message, q') =>
                  ({| status := 500;
                      json := ErrorBody "COMPLETION_ERROR"
                        (if bool_decide (message = "")
                         then "Failed to complete command" else message) |}, q')
              | (CompleteSuccess removed commandId, q') =>
                  ({| status := 200;
                      json := CompletedBody removed commandId None |}, q')
              end
        | _ =>
            (badRequest "INVALID_COMMAND_ID"
               "Command ID must be a non-empty string", q)
        end
  end.

(** ** Runs of the engine *)

(** The calls the engine receives: the four operations and the periodic
    sweep of [startCleanup]. Each carries the clock readings it makes. *)
Inductive Event : Type :=
| EvAdd (type player : string) (timestamp now : Z)
| EvPoll (now : Z)
| EvComplete (commandId : string) (success : bool) (error : option string)
| EvStatus (now now' : Z)
| EvTick (now : Z).

Inductive Output : Type :=
| OutAdd (r : AddResult)
| OutPoll (r : PollResult)
| OutComplete (r : CompleteResult)
| OutStatus (s : Status)
| OutTick.

(** The queue together with the number of identifiers drawn from the
    generator so far. *)
Record World : Type := {
  queue : CommandQueue;
  uuidsDrawn : nat
}.

Definition initWorld (env : Env) : World :=
  {| queue := constructor env; uuidsDrawn := 0 |}.

Definition returnedId (o : Output) : option string :=
  match o with
  | OutAdd (AddSuccess commandId _) => Some commandId
  | _ => None
  end.

(** The identifiers handed out by the successful submissions of a run. *)
Definition returnedIds (outs : list Output) : list string :=
  omap returnedId outs.

Section runs.
(** [randomUUID n] is the value of the [n]-th call of
    [crypto.randomUUID()]. *)
Variable randomUUID : nat → string.

Definition step (w : World) (e : Event) : Output * World :=
  match e with
  | EvAdd type player timestamp now =>
      let '(r, q') :=
        addCommand type player timestamp now (randomUUID (uuidsDrawn w)) (queue w) in
      (OutAdd r,
       {| queue := q';
          uuidsDrawn :=
            match r with
            | AddSuccess _ _ => S (uuidsDrawn w)
            | AddFailure _ _ => uuidsDrawn w
            end |})
  | EvPoll now =>
      let '(r, q') := pollCommand now (queue w) in
      (OutPoll r, {| queue := q'; uuidsDrawn := uuidsDrawn w |})
  | EvComplete commandId success error =>
      let '(r, q') := completeCommand commandId success error (queue w) in
      (OutComplete r, {| queue := q'; uuidsDrawn := uuidsDrawn w |})
  | EvStatus now now' =>
      let '(s, q') := getStatus now now' (queue w) in
      (OutStatus s, {| queue := q'; uuidsDrawn := uuidsDrawn w |})
  | EvTick now =>
      (OutTick,
       {| queue := cleanupExpiredCommands now (queue w);
          uuidsDrawn := uuidsDrawn w |})
  end.

Fixpoint run (tr : list Event) (w : World) : list Output * World :=
  match tr with
  | [] => ([], w)
  | e :: tr' =>
      let '(o, w') := step w e in
      let '(os, w'') := run tr' w' in
      (o :: os, w'')
  end.

(** The worlds the server can be in: those a run leads to from a freshly
    constructed queue. *)
Definition reachable (env : Env) (w : World) : Prop :=
  ∃ tr, (run tr (initWorld env)).2 = w.
End runs.

(** ** Predicates of the statements *)

(** [now > command.expiresAt], the test of the sweep. *)
Definition expired (now : Z) (c : Command.t) : Prop := Command.expiresAt c < now.

#[local] Instance expired_dec now c : Decision (expired now c) :=
  Z_lt_dec (Command.expiresAt c) now.

(** The player has a cooldown entry younger than the cooldown window. *)
Definition inCooldown (player : string) (now : Z) (q : CommandQueue) : Prop :=
  ∃ t, playerCooldowns q !! player = Some t
       ∧ now - t < duplicateCooldownMs (config q).

(** Every cooldown entry holds a reading of the clock other than 0
    ([Date.now()] counts the milliseconds since 1970). *)
Definition cooldownsNonZero (q : CommandQueue) : Prop :=
  ∀ player t, playerCooldowns q !! player = Some t → t ≠ 0.

(** The submission, if the event is one, reads a clock other than 0. *)
Definition clockNonZero (e : Event) : Prop :=
  match e with
  | EvAdd _ _ _ now => now ≠ 0
  | _ => True
  end.

(** What holds of the store in every state the operations lead to: a key
    occurs once and is the [id] of its command, [attempts] is 0, and
    [expiresAt] is [createdAt] plus the expiration window. *)
Record wf_queue (q : CommandQueue) : Prop := {
  wf_keys : OMap.wf (commands q);
  wf_ids : ∀ k c, (k, c) ∈ commands q → Command.id c = k;
  wf_attempts : ∀ k c, (k, c) ∈ commands q → Command.attempts c = 0;
  wf_expiresAt : ∀ k c, (k, c) ∈ commands q →
    Command.expiresAt c = Command.createdAt c + commandExpirationMs (config q)
}.

(** In a world, moreover, every key of the store was drawn from the
    generator. *)
Record wf_world (randomUUID : nat → string) (w : World) : Prop := {
  wf_world_queue : wf_queue (queue w);
  wf_world_drawn : ∀ k, k ∈ OMap.keys (commands (queue w)) →
    ∃ n, (n < uuidsDrawn w)%nat ∧ k = randomUUID n
}.

(** What repeated polls rely on: the world is well formed and the command
    [c] heads the store under the key [k]. *)
Definition heads (randomUUID : nat → string) (k : string) (c : Command.t)
    (w : World) : Prop :=
  wf_world randomUUID w ∧ head (commands (queue w)) = Some (k, c).

(** The clock reading of the sweep an event runs, if it runs one. *)
Definition sweepTime (e : Event) : option Z :=
  match e with
  | EvPoll now | EvStatus now _ | EvTick now => Some now
  | EvAdd _ _ _ _ | EvComplete _ _ _ => None
  end.

(** The sweep of the event, if any, reads the clock no later than
    [deadline]. *)
Definition sweptBy (deadline : Z) (e : Event) : Prop :=
  match sweepTime e with
  | Some now => now ≤ deadline
  | None => True
  end.

#[local] Instance sweptBy_dec deadline e : Decision (sweptBy deadline e) :=
  match sweepTime e as o
    return Decision (match o with Some now => now ≤ deadline | None => True end)
  with
  | Some now => Z_le_dec now deadline
  | None => left I
  end.

Definition isComplete (e : Event) : Prop :=
  match e with EvComplete _ _ _ => True | _ => False end.

(** The identifier [k] was handed out and its command has left the store. *)
Definition retired (randomUUID : nat → string) (k : string) (w : World) : Prop :=
  wf_world randomUUID w
  ∧ (k ∉ OMap.keys (commands (queue w)))
  ∧ ∃ n, (n < uuidsDrawn w)%nat ∧ k = randomUUID n.

Definition isAddSuccess (o : Output) : Prop :=
  match o with OutAdd (AddSuccess _ _) => True | _ => False end.

(** ** The producer and the consumer of the FIFO scenario *)

Record Submission : Type := {
  sub_type : string;
  sub_player : string;
  sub_timestamp : Z;
  sub_now : Z
}.

Definition submissions (subs : list Submission) : list Event :=
  (λ s, EvAdd (sub_type s) (sub_player s) (sub_timestamp s) (sub_now s)) <$> subs.

(** The command [addCommand] builds for a submission that draws [uuid]. *)
Definition submittedCommand (cfg : Config) (uuid : string) (s : Submission)
  : Command.t :=
  {| Command.id := uuid;
     Command.type := sub_type s;
     Command.player := sub_player s;
     Command.timestamp := sub_timestamp s;
     Command.attempts := 0;
     Command.createdAt := sub_now s;
     Command.expiresAt := sub_now s + commandExpirationMs cfg |}.

(** The commands of successive accepted submissions, the first of which
    draws the [n]-th identifier. *)
Fixpoint submittedCommands (randomUUID : nat → string) (cfg : Config) (n : nat)
    (subs : list Submission) : list Command.t :=
  match subs with
  | [] => []
  | s :: subs' =>
      submittedCommand cfg (randomUUID n) s
        :: submittedCommands randomUUID cfg (S n) subs'
  end.

(** The entries of a store holding the given commands under their ids. *)
Definition entries (cs : list Command.t) : OMap.t Command.t :=
  (λ c, (Command.id c, c)) <$> cs.

(** One turn of the consumer: the clock reading of its poll and the outcome
    it reports. *)
Record Cycle : Type := {
  cycle_now : Z;
  cycle_success : bool;
  cycle_error : option string
}.

(** Poll, then acknowledge the command received (the loop of the polling
    test in [queue.property.test.js]). *)
Definition pollThenComplete (cy : Cycle) (q : CommandQueue)
  : PollResult * CommandQueue :=
  let '(r, q') := pollCommand (cycle_now cy) q in
  match r with
  | NoCommand => (r, q')
  | HasCommand c =>
      (r, (completeCommand (polled_id c) (cycle_success cy) (cycle_error cy) q').2)
  end.

Fixpoint pollCompleteCycles (cys : list Cycle) (q : CommandQueue)
  : list PollResult * CommandQueue :=
  match cys with
  | [] => ([], q)
  | cy :: cys' =>
      let '(r, q') := pollThenComplete cy q in
      let '(rs, q'') := pollCompleteCycles cys' q' in
      (r :: rs, q'')
  end.

(** ** Sample data *)

(** A generator of pairwise distinct identifiers. *)
Definition sampleUUID (n : nat) : string := "cmd-" +:+ pretty n.

(** No environment variable set: the defaults 50, 300000 and 60000. *)
Definition defaultEnv : Env :=
  {| MAX_QUEUE_SIZE := None;
     COMMAND_EXPIRATION_MS := None;
     DUPLICATE_COOLDOWN_MS := None |}.

(** [MAX_QUEUE_SIZE=1] *)
Definition tinyEnv : Env :=
  {| MAX_QUEUE_SIZE := Some 1;
     COMMAND_EXPIRATION_MS := None;
     DUPLICATE_COOLDOWN_MS := None |}.

(** A clock reading of November 2023. *)
Definition t0 : Z := 1700000000000.

(** The default queue after [addCommand("kick", "Alice", 1000)] at [t0]. *)
Definition aliceQueue : CommandQueue :=
  (addCommand "kick" "Alice" 1000 t0 (sampleUUID 0) (constructor defaultEnv)).2.

(** The same submission to a queue of capacity 1, which it fills. *)
Definition fullQueue : CommandQueue :=
  (addCommand "kick" "Alice" 1000 t0 (sampleUUID 0) (constructor tinyEnv)).2.

(** The command the two queues hold. *)
Definition aliceCommand : Command.t :=
  {| Command.id := "cmd-0";
     Command.type := "kick";
     Command.player := "Alice";
     Command.timestamp := 1000;
     Command.attempts := 0;
     Command.createdAt := t0;
     Command.expiresAt := t0 + 300000 |}.

(** Three submissions for three players, one millisecond apart, and three
    turns of the consumer within the expiration window. *)
Definition threeSubmissions : list Submission :=
  [ {| sub_type := "kick"; sub_player := "Alice"; sub_timestamp := 1000; sub_now := t0 |};
    {| sub_type := "ban"; sub_player := "Bob"; sub_timestamp := 1001; sub_now := t0 + 1 |};
    {| sub_type := "kick"; sub_player := "Carol"; sub_timestamp := 1002; sub_now := t0 + 2 |} ].

Definition threeCycles : list Cycle :=
  [ {| cycle_now := t0 + 10; cycle_success := true; cycle_error := None |};
    {| cycle_now := t0 + 20; cycle_success := false; cycle_error := Some "offline" |};
    {| cycle_now := t0 + 300000; cycle_success := true; cycle_error := None |} ].

(** Alice's command submitted at [t0] and Bob's a second later, both
    pending: the first expires after [t0 + 300000], the second after
    [t0 + 301000]. *)
Definition aliceBobWorld : World :=
  (run sampleUUID
     [EvAdd "kick" "Alice" 1000 t0; EvAdd "ban" "Bob" 2000 (t0 + 1000)]
     (initWorld defaultEnv)).2.

(** ** The functions of [lib/auth.js] *)

(** The middleware [createApiKeyMiddleware({apiKey, required})] returns, run
    on a request that carries [providedKey] in its [X-API-Key] header: the
    status, error and message of the rejection, or [None] for the call of
    [next()]. *)
Definition checkApiKey (apiKey : option string) (required : bool)
    (providedKey : option string) : option (Z * string * string) :=
  if negb (nonEmpty apiKey) && negb required then None
  else if required && negb (nonEmpty apiKey) then
    Some (500, "SERVER_MISCONFIGURED",
          "API key authentication is required but not configured")
  else if required && negb (nonEmpty providedKey) then
    Some (401, "MISSING_API_KEY",
          "API key is required. Provide X-API-Key header.")
  else if nonEmpty providedKey && bool_decide (providedKey ≠ apiKey) then
    Some (401, "INVALID_API_KEY", "Invalid API key provided")
  else None.

(** [devApiKeyMiddleware]: [required: false] *)
Definition devApiKeyMiddleware (apiKey providedKey : option string)
  : option (Z * string * string) :=
  checkApiKey apiKey false providedKey.

(** [validateApiKey(providedKey, expectedKey)] *)
Definition validateApiKey (providedKey expectedKey : option string) : bool :=
  if negb (nonEmpty expectedKey) then true
  else if negb (nonEmpty providedKey) then false
  else bool_decide (providedKey = expectedKey).

(** ** The other endpoints *)

(** What an endpoint sends: [{success: false, error, message}] under a
    status, or a payload of its own under a status. *)
Inductive Reply (A : Type) : Type :=
| Failed (status : Z) (error message : string)
| Answered (status : Z) (payload : A).

Arguments Failed {A} status error message.
Arguments Answered {A} status payload.

Definition replyStatus {A} (r : Reply A) : Z :=
  match r with
  | Failed status _ _ => status
  | Answered status _ => status
  end.

Definition rejection {A} (e : Z * string * string) : Reply A :=
  Failed e.1.1 e.1.2 e.2.

Definition errorName (e : ErrorKind) : string :=
  match e with
  | DUPLICATE_COMMAND => "DUPLICATE_COMMAND"
  | QUEUE_FULL => "QUEUE_FULL"
  | COMMAND_NOT_FOUND => "COMMAND_NOT_FOUND"
  end.

(** *** [POST /api/command] *)

(** The character [U+0022]. *)
Definition quote : string := String (Ascii.ascii_of_nat 34) EmptyString.

(** The message of [INVALID_COMMAND_TYPE], which quotes the two types. *)
Definition invalidTypeMessage : string :=
  "Command type must be " +:+ quote +:+ "kick" +:+ quote
    +:+ " or " +:+ quote +:+ "ban" +:+ quote.

Record CommandBody : Type := {
  body_type : JsValue;
  body_player : JsValue;
  body_timestamp : JsValue
}.

Record CommandRequest : Type := {
  command_method : string;
  command_x_api_key : option string;
  command_body : option CommandBody
}.

(** [{success: true, commandId, queuePosition}] *)
Record Accepted : Type := {
  accepted_commandId : string;
  accepted_queuePosition : Z
}.

(** [[a-zA-Z0-9]] *)
Definition isAlphaNum (a : Ascii.ascii) : bool :=
  let n := Ascii.nat_of_ascii a in
  bool_decide (48 ≤ n ≤ 57)%nat || bool_decide (65 ≤ n ≤ 90)%nat
  || bool_decide (97 ≤ n ≤ 122)%nat.

Fixpoint stringFilter (keep : Ascii.ascii → bool) (s : string) : string :=
  match s with
  | EmptyString => EmptyString
  | String a s' =>
      if keep a then String a (stringFilter keep s') else stringFilter keep s'
  end.

(** [player.trim().replace(/[^a-zA-Z0-9\s]/g, '')]; the class [\s] is the
    white space of [trim]. *)
Definition sanitizePlayer (player : string) : string :=
  stringFilter (λ a, isAlphaNum a || isWhiteSpace a) (trim player).

(** [const { type, player, timestamp } = req.body || {}] *)
Definition commandFields (req : CommandRequest) : JsValue * JsValue * JsValue :=
  match command_body req with
  | Some b => (body_type b, body_player b, body_timestamp b)
  | None => (JsUndefined, JsUndefined, JsUndefined)
  end.

(** The handler of [api/command.js]; [now] and [uuid] are handed on to
    [addCommand]. The numbers of a body are integers here. *)
Definition commandHandler (apiKey : option string) (req : CommandRequest)
    (now : Z) (uuid : string) (q : CommandQueue) : Reply Accepted * CommandQueue :=
  match checkApiKey apiKey (nonEmpty apiKey) (command_x_api_key req) with
  | Some e => (rejection e, q)
  | None =>
      let '(type, player, timestamp) := commandFields req in
      if bool_decide (command_method req ≠ "POST") then
        (Failed 405 "METHOD_NOT_ALLOWED" "Only POST method is allowed", q)
      else if negb (truthy type) || negb (truthy player) || negb (truthy timestamp) then
        (Failed 400 "MISSING_REQUIRED_FIELDS"
           "Required fields: type, player, timestamp", q)
      else
        match type with
        | JsString type =>
            if bool_decide (type ≠ "kick") && bool_decide (type ≠ "ban") then
              (Failed 400 "INVALID_COMMAND_TYPE"
                 invalidTypeMessage, q)
            else
              match player with
              | JsString player =>
                  if bool_decide (trim player = "") then
                    (Failed 400 "INVALID_PLAYER_NAME"
                       "Player name must be a non-empty string", q)
                  else
                    match timestamp with
                    | JsNumber timestamp =>
                        if bool_decide (timestamp ≤ 0) then
                          (Failed 400 "INVALID_TIMESTAMP"
                             "Timestamp must be a positive number", q)
                        else
                          let sanitizedPlayer := sanitizePlayer player in
                          if bool_decide (sanitizedPlayer = "") then
                            (Failed 400 "INVALID_PLAYER_NAME"
                               "Player name contains only invalid characters", q)
                          else
                            match addCommand type sanitizedPlayer timestamp now uuid q with
                            | (AddFailure DUPLICATE_COMMAND message, q') =>
                                (Failed 409 (errorName DUPLICATE_COMMAND) message, q')
                            | (AddFailure QUEUE_FULL message, q') =>
                                (Failed 503 (errorName QUEUE_FULL) message, q')
                            | (AddFailure _ message, q') =>
                                (Failed 500 "QUEUE_ERROR"
                                   (if bool_decide (message = "")
                                    then "Failed to add command to queue"
                                    else message), q')
                            | (AddSuccess commandId queuePosition, q') =>
                                (Answered 200
                                   {| accepted_commandId := commandId;
                                      accepted_queuePosition := queuePosition |}, q')
                            end
                    | _ =>
                        (Failed 400 "INVALID_TIMESTAMP"
                           "Timestamp must be a positive number", q)
                    end
              | _ =>
                  (Failed 400 "INVALID_PLAYER_NAME"
                     "Player name must be a non-empty string", q)
              end
        | _ =>
            (Failed 400 "INVALID_COMMAND_TYPE"
               invalidTypeMessage, q)
        end
  end.

(** *** [GET /api/poll] *)

(** [req.method], the [X-API-Key] header and [req.query.deviceId] *)
Record PollRequest : Type := {
  poll_method : string;
  poll_x_api_key : option string;
  poll_deviceId : JsValue
}.

(** The handler of [api/poll.js]. *)
Definition pollHandler (apiKey : option string) (req : PollRequest) (now : Z)
    (q : CommandQueue) : Reply PollResult * CommandQueue :=
  match checkApiKey apiKey (nonEmpty apiKey) (poll_x_api_key req) with
  | Some e => (rejection e, q)
  | None =>
      if bool_decide (poll_method req ≠ "GET") then
        (Failed 405 "METHOD_NOT_ALLOWED" "Only GET method is allowed", q)
      else if truthy (poll_deviceId req) && negb (isString (poll_deviceId req)) then
        (Failed 400 "INVALID_DEVICE_ID" "Device ID must be a string", q)
      else
        let '(result, q') := pollCommand now q in
        (Answered 200 result, q')
  end.

(** *** [GET /api/status] *)

Record StatusRequest : Type := {
  status_method : string;
  status_x_api_key : option string
}.

(** The body of the answer, times in seconds. *)
Record StatusReport : Type := {
  report_queueSize : Z;
  report_uptime : Z;
  report_version : string;
  report_maxQueueSize : Z;
  report_cooldownCount : Z;
  report_oldestCommandAge : Z;
  report_timestamp : Z
}.

(** The gate of the status endpoint:
    [process.env.API_KEY ? apiKeyMiddleware : (req, res, next) => next()].
    The handler reads the variable at each request, [envApiKey]; the
    middleware holds the value [lib/auth.js] read when it was loaded,
    [apiKey]. *)
Definition statusAuth (apiKey envApiKey providedKey : option string)
  : option (Z * string * string) :=
  if nonEmpty envApiKey then checkApiKey apiKey (nonEmpty apiKey) providedKey
  else None.

(** The handler of the status endpoint. [apiKey] is the value of [API_KEY]
    when the modules were loaded and [envApiKey] its value at the request;
    [serverStartTime] is the clock reading taken when the module was loaded;
    [packageVersion] is the [version] of [package.json], [None] when the
    file cannot be read; [now] and [now'] are the clock readings of
    [getStatus], [nowUptime] and [nowStamp] the two the handler makes
    afterwards. [Math.floor(x / 1000)] is the division of [Z]. *)
Definition statusHandler (apiKey envApiKey : option string)
    (serverStartTime : Z) (packageVersion : option string)
    (req : StatusRequest) (now now' nowUptime nowStamp : Z) (q : CommandQueue)
  : Reply StatusReport * CommandQueue :=
  match statusAuth apiKey envApiKey (status_x_api_key req) with
  | Some e => (rejection e, q)
  | None =>
      if bool_decide (status_method req ≠ "GET") then
        (Failed 405 "METHOD_NOT_ALLOWED" "Only GET method is allowed", q)
      else
        let '(queueStatus, q') := getStatus now now' q in
        let uptimeMs := nowUptime - serverStartTime in
        let uptimeSeconds := uptimeMs / 1000 in
        let version := default "1.0.0" packageVersion in
        (Answered 200
           {| report_queueSize := queueSize queueStatus;
              report_uptime := uptimeSeconds;
              report_version := version;
              report_maxQueueSize := status_maxQueueSize queueStatus;
              report_cooldownCount := cooldownCount queueStatus;
              report_oldestCommandAge := oldestCommandAge queueStatus / 1000;
              report_timestamp := nowStamp / 1000 |}, q')
  end.

(** ** Further predicates *)

(** The store holds at most [maxQueueSize] commands, none when that is
    negative. *)
Definition withinCapacity (q : CommandQueue) : Prop :=
  OMap.size (commands q) ≤ Z.max 0 (maxQueueSize (config q)).

(** No command of the store belongs to [player]. *)
Definition noCommandOf (player : string) (m : OMap.t Command.t) : Prop :=
  ∀ k c, (k, c) ∈ m → Command.player c ≠ player.

(** The characters of a string. *)
Fixpoint chars (s : string) : list Ascii.ascii :=
  match s with
  | EmptyString => []
  | String a s' => a :: chars s'
  end.

(** The commands of a store come in the order of their [createdAt]. *)
Fixpoint arrivalSorted (m : OMap.t Command.t) : Prop :=
  match m with
  | [] => True
  | e :: m' =>
      Forall (λ e' : string * Command.t,
                Command.createdAt e.2 ≤ Command.createdAt e'.2) m'
      ∧ arrivalSorted m'
  end.

(** The clock readings of the submissions of a run, in their order. *)
Definition addTimes (tr : list Event) : list Z :=
  omap (λ e, match e with EvAdd _ _ _ now => Some now | _ => None end) tr.

(** The readings of a clock that never goes back. *)
Fixpoint nondecreasing (ts : list Z) : Prop :=
  match ts with
  | [] => True
  | t :: ts' => Forall (Z.le t) ts' ∧ nondecreasing ts'
  end.

(** ** Facts about insertion-ordered maps *)

Section omap_facts.
Context {V : Type}.
Implicit Types (m : OMap.t V) (k : string) (v : V).

Lemma omap_get_None k m : OMap.get k m = None ↔ k ∉ OMap.keys m.
Proof.
  induction m as [|[k' v'] m IH]; simpl.
  - split; [intros _; apply not_elem_of_nil | done].
  - rewrite not_elem_of_cons. destruct (decide (k = k')) as [->|Hne].
    + split; [done | intros [[] _]; done].
    + rewrite IH. tauto.
Qed.

Lemma omap_get_Some_elem k v m : OMap.get k m = Some v → (k, v) ∈ m.
Proof.
  induction m as [|[k' v'] m IH]; simpl; [done|].
  destruct (decide (k = k')) as [->|Hne].
  - intros [= ->]. apply elem_of_cons; by left.
  - intros H. apply elem_of_cons; right; auto.
Qed.

Lemma omap_elem_keys k v m : (k, v) ∈ m → k ∈ OMap.keys m.
Proof. intros H. apply list_elem_of_fmap. by exists (k, v). Qed.

Lemma omap_elem_get k v m : OMap.wf m → (k, v) ∈ m → OMap.get k m = Some v.
Proof.
  unfold OMap.wf, OMap.keys.
  induction m as [|[k' v'] m IH]; simpl; intros Hnd Hin.
  - by apply elem_of_nil in Hin.
  - apply NoDup_cons in Hnd as [Hk' Hnd].
    apply elem_of_cons in Hin as [[= -> ->]|Hin].
    + by rewrite decide_True.
    + rewrite decide_False; [auto|].
      intros ->. apply Hk'. by eapply omap_elem_keys.
Qed.

(** A key names one entry. *)
Lemma omap_wf_functional k v1 v2 m :
  OMap.wf m → (k, v1) ∈ m → (k, v2) ∈ m → v1 = v2.
Proof.
  intros Hwf H1 H2.
  apply (omap_elem_get _ _ _ Hwf) in H1, H2. congruence.
Qed.

Lemma omap_keys_delete k m :
  OMap.keys (OMap.delete k m) = filter (λ k', k' ≠ k) (OMap.keys m).
Proof.
  unfold OMap.keys, OMap.delete.
  induction m as [|[k' v'] m IH]; [done|].
  rewrite fmap_cons. simpl. destruct (decide (k' ≠ k)) as [Hk|Hk].
  - rewrite (filter_cons_True _ (k', v')), (filter_cons_True _ k') by done.
    rewrite fmap_cons. simpl. by rewrite IH.
  - by rewrite (filter_cons_False _ (k', v')), (filter_cons_False _ k').
Qed.

Lemma omap_delete_wf k m : OMap.wf m → OMap.wf (OMap.delete k m).
Proof.
  unfold OMap.wf. rewrite omap_keys_delete. apply NoDup_filter.
Qed.

Lemma omap_get_delete_eq k m : OMap.get k (OMap.delete k m) = None.
Proof.
  apply omap_get_None. rewrite omap_keys_delete, list_elem_of_filter.
  by intros [? _].
Qed.

Lemma omap_get_delete_ne k k' m :
  k ≠ k' → OMap.get k' (OMap.delete k m) = OMap.get k' m.
Proof.
  intros Hne. unfold OMap.delete.
  induction m as [|[k0 v0] m IH]; [done|].
  rewrite filter_cons. simpl.
  destruct (decide (k0 ≠ k)) as [Hk0|Hk0]; simpl.
  - by rewrite IH.
  - apply dec_stable in Hk0 as ->. rewrite IH. by rewrite decide_False.
Qed.

(** Deleting a key leaves the other entries in their order. *)
Lemma omap_delete_sublist k m : OMap.delete k m `sublist_of` m.
Proof. apply sublist_filter. Qed.

Lemma omap_delete_absent k m : k ∉ OMap.keys m → OMap.delete k m = m.
Proof.
  unfold OMap.keys, OMap.delete.
  induction m as [|[k' v'] m IH]; [done|].
  rewrite fmap_cons. intros [Hne Hk]%not_elem_of_cons. simpl in Hne.
  rewrite filter_cons_True by (simpl; auto). by rewrite IH.
Qed.

Lemma omap_delete_head k v m :
  OMap.wf ((k, v) :: m) → OMap.delete k ((k, v) :: m) = m.
Proof.
  unfold OMap.wf, OMap.keys. rewrite fmap_cons. simpl.
  intros [Hk _]%NoDup_cons. unfold OMap.delete.
  rewrite filter_cons_False by (simpl; tauto).
  by apply omap_delete_absent.
Qed.

(** A new key goes to the end. *)
Lemma omap_set_fresh k v m : k ∉ OMap.keys m → OMap.set k v m = m ++ [(k, v)].
Proof.
  unfold OMap.keys.
  induction m as [|[k' v'] m IH]; [done|].
  rewrite fmap_cons. intros [Hne Hk]%not_elem_of_cons. simpl.
  rewrite decide_False by done. by rewrite IH.
Qed.

Lemma omap_keys_set k v m :
  OMap.keys (OMap.set k v m)
  = if decide (k ∈ OMap.keys m) then OMap.keys m else OMap.keys m ++ [k].
Proof.
  unfold OMap.keys.
  induction m as [|[k' v'] m IH].
  - cbn [OMap.set]. case_decide as H; [by apply elem_of_nil in H | done].
  - cbn [OMap.set]. destruct (decide (k = k')) as [->|Hne].
    + rewrite !fmap_cons. rewrite decide_True; [done|].
      apply elem_of_cons. by left.
    + rewrite !fmap_cons. cbn [fst]. rewrite IH.
      destruct (decide (k ∈ m.*1)) as [H1|H1];
        destruct (decide (k ∈ k' :: m.*1)) as [H2|H2]; try done.
      * exfalso. apply H2, elem_of_cons. by right.
      * apply elem_of_cons in H2 as [?|?]; done.
Qed.

Lemma omap_length_set k v m :
  length (OMap.set k v m)
  = if decide (k ∈ OMap.keys m) then length m else S (length m).
Proof.
  rewrite <- (length_fmap fst (OMap.set k v m)).
  change (fst <$> OMap.set k v m) with (OMap.keys (OMap.set k v m)).
  rewrite omap_keys_set. unfold OMap.keys.
  case_decide; rewrite ?length_app, length_fmap; simpl; lia.
Qed.

Lemma omap_set_wf k v m : OMap.wf m → OMap.wf (OMap.set k v m).
Proof.
  unfold OMap.wf. rewrite omap_keys_set. intros Hnd.
  destruct (decide (k ∈ OMap.keys m)) as [Hin|Hin]; [done|].
  apply NoDup_app. split_and!; [done | | apply NoDup_singleton].
  intros x Hx ->%list_elem_of_singleton. done.
Qed.

Lemma omap_get_set_eq k v m : OMap.get k (OMap.set k v m) = Some v.
Proof.
  induction m as [|[k' v'] m IH]; simpl.
  - by rewrite decide_True.
  - destruct (decide (k = k')) as [->|Hne]; simpl.
    + by rewrite decide_True.
    + by rewrite decide_False.
Qed.

Lemma omap_elem_set k v k' v' m :
  (k', v') ∈ OMap.set k v m → (k' = k ∧ v' = v) ∨ (k', v') ∈ m.
Proof.
  induction m as [|[k0 v0] m IH]; simpl.
  - intros [= -> ->]%list_elem_of_singleton. by left.
  - destruct (decide (k = k0)) as [->|Hne].
    + intros [[= -> ->]|Hin]%elem_of_cons; [by left|].
      right. apply elem_of_cons. by right.
    + intros [[= -> ->]|Hin]%elem_of_cons.
      * right. apply elem_of_cons. by left.
      * destruct (IH Hin) as [?|?]; [by left|].
        right. apply elem_of_cons. by right.
Qed.

Lemma omap_first_cons k v m : OMap.first ((k, v) :: m) = Some v.
Proof. done. Qed.
End omap_facts.

(** ** The expiration sweep *)

Section filter_facts.
Context {A : Type} (P Q : A → Prop) `{!∀ x, Decision (P x), !∀ x, Decision (Q x)}.

Lemma filter_ext_elem (l : list A) :
  (∀ x, x ∈ l → P x ↔ Q x) → filter P l = filter Q l.
Proof.
  induction l as [|a l IH]; intros Hext; [done|].
  rewrite !filter_cons.
  assert (P a ↔ Q a) as Ha by (apply Hext, elem_of_cons; by left).
  rewrite IH by (intros x Hx; apply Hext, elem_of_cons; by right).
  destruct (decide (P a)), (decide (Q a)); tauto.
Qed.

Lemma filter_all (l : list A) : (∀ x, x ∈ l → P x) → filter P l = l.
Proof.
  induction l as [|a l IH]; intros Hall; [done|].
  rewrite filter_cons_True by (apply Hall, elem_of_cons; by left).
  rewrite IH; [done|]. intros x Hx. apply Hall, elem_of_cons. by right.
Qed.
End filter_facts.

(** The first loop deletes the keys of the expired entries it visits. *)
Lemma sweep_fold_commands now (es : OMap.t Command.t) acc :
  (foldl (sweepEntry now) acc es).1
  = filter (λ e : string * Command.t,
              e.1 ∉ (filter (λ e', expired now e'.2) es).*1) acc.1.
Proof.
  revert acc. induction es as [|e es IH]; intros acc.
  - simpl. symmetry. apply filter_all. intros x _. apply not_elem_of_nil.
  - cbn [foldl]. rewrite IH. unfold sweepEntry.
    destruct (decide (expired now e.2)) as [He|He].
    + rewrite bool_decide_eq_true_2 by done. cbn [fst].
      unfold OMap.delete. rewrite list_filter_filter.
      rewrite (filter_cons_True (λ e', expired now e'.2)) by done.
      rewrite fmap_cons. apply list_filter_iff. intros x.
      rewrite not_elem_of_cons. tauto.
    + rewrite bool_decide_eq_false_2 by done.
      by rewrite (filter_cons_False (λ e', expired now e'.2)).
Qed.

(** On a store that holds every key once, the sweep keeps exactly the
    commands with [now <= expiresAt], in their order. *)
Lemma cleanup_commands now q :
  OMap.wf (commands q) →
  commands (cleanupExpiredCommands now q)
  = filter (λ e : string * Command.t, ¬ expired now e.2) (commands q).
Proof.
  intros Hwf. unfold cleanupExpiredCommands. cbn [commands].
  rewrite sweep_fold_commands. cbn [fst].
  apply filter_ext_elem. intros [k c] Hin. cbn [fst snd].
  rewrite list_elem_of_fmap. split.
  - intros Hk Hc. apply Hk. exists (k, c). split; [done|].
    apply list_elem_of_filter. by split.
  - intros Hc [[k' c'] [Heq [Hc' Hin']%list_elem_of_filter]].
    cbn [fst snd] in *. subst k'.
    by rewrite (omap_wf_functional k c c' _ Hwf Hin Hin') in Hc.
Qed.

Lemma cleanup_config now q : config (cleanupExpiredCommands now q) = config q.
Proof. done. Qed.

(** The sweep only removes cooldown entries. *)
Lemma sweep_fold_cooldowns now (es : OMap.t Command.t) acc player t :
  (foldl (sweepEntry now) acc es).2 !! player = Some t → acc.2 !! player = Some t.
Proof.
  revert acc. induction es as [|e es IH]; intros acc; [done|].
  cbn [foldl]. intros H%IH. unfold sweepEntry in H.
  case_bool_decide; [|done]. cbn [snd] in H.
  by apply lookup_delete_Some in H as [_ ?].
Qed.

Lemma cleanup_cooldowns now q player t :
  playerCooldowns (cleanupExpiredCommands now q) !! player = Some t →
  playerCooldowns q !! player = Some t.
Proof.
  unfold cleanupExpiredCommands. cbn [playerCooldowns].
  intros [H _]%map_lookup_filter_Some.
  by apply sweep_fold_cooldowns in H.
Qed.

(** After the sweep at [now] no command of the store has expired. *)
Lemma cleanup_unexpired now q k c :
  OMap.wf (commands q) →
  (k, c) ∈ commands (cleanupExpiredCommands now q) →
  now ≤ Command.expiresAt c.
Proof.
  intros Hwf. rewrite cleanup_commands by done.
  intros [Hc _]%list_elem_of_filter. unfold expired in Hc. cbn in Hc. lia.
Qed.

Lemma cleanup_elem now q k c :
  OMap.wf (commands q) →
  (k, c) ∈ commands (cleanupExpiredCommands now q)
  ↔ (k, c) ∈ commands q ∧ now ≤ Command.expiresAt c.
Proof.
  intros Hwf. rewrite cleanup_commands by done.
  rewrite list_elem_of_filter. unfold expired. cbn. split.
  - intros [? ?]. split; [done | lia].
  - intros [? ?]. split; [lia | done].
Qed.

(** A sweep at which nothing has expired leaves the store as it is. *)
Lemma cleanup_commands_id now q :
  OMap.wf (commands q) →
  (∀ k c, (k, c) ∈ commands q → now ≤ Command.expiresAt c) →
  commands (cleanupExpiredCommands now q) = commands q.
Proof.
  intros Hwf Hlive. rewrite cleanup_commands by done.
  apply filter_all. intros [k c] Hin. unfold expired. cbn.
  specialize (Hlive k c Hin). lia.
Qed.

(** ** The invariant of the store *)

Lemma wf_queue_sub q q' :
  config q' = config q →
  OMap.wf (commands q') →
  (∀ e, e ∈ commands q' → e ∈ commands q) →
  wf_queue q → wf_queue q'.
Proof.
  intros Hcfg Hwf Hsub [? Hids Hatt Hexp].
  split; [done | | |]; intros k c Hin%Hsub; rewrite ?Hcfg; eauto.
Qed.

Lemma constructor_wf env : wf_queue (constructor env).
Proof.
  split; [apply NoDup_nil_2 | | |]; intros k c Hin; by apply elem_of_nil in Hin.
Qed.

Lemma clear_wf q : wf_queue (clear q).
Proof.
  split; [apply NoDup_nil_2 | | |]; intros k c Hin; by apply elem_of_nil in Hin.
Qed.

Lemma cleanup_wf now q : wf_queue q → wf_queue (cleanupExpiredCommands now q).
Proof.
  intros Hwf. pose proof (wf_keys _ Hwf) as Hkeys.
  apply (wf_queue_sub q); [done | | | done].
  - rewrite cleanup_commands by done. unfold OMap.wf, OMap.keys.
    eapply sublist_NoDup; [exact Hkeys|].
    apply fmap_sublist, sublist_filter.
  - intros [k c] Hin. by apply cleanup_elem in Hin as [? _].
Qed.

Lemma addCommand_wf type player timestamp now uuid q :
  wf_queue q → wf_queue (addCommand type player timestamp now uuid q).2.
Proof.
  intros Hwf. unfold addCommand.
  destruct (isDuplicateCommand player now q); [done|].
  case_bool_decide; [done|]. cbn [snd].
  destruct Hwf as [Hkeys Hids Hatt Hexp].
  split; cbn [commands config].
  - by apply omap_set_wf.
  - intros k c [[-> ->]|Hin]%omap_elem_set; [done | eauto].
  - intros k c [[-> ->]|Hin]%omap_elem_set; [done | eauto].
  - intros k c [[-> ->]|Hin]%omap_elem_set; [done | eauto].
Qed.

Lemma pollCommand_state now q :
  (pollCommand now q).2 = cleanupExpiredCommands now q.
Proof. unfold pollCommand. by destruct (OMap.first _). Qed.

Lemma getStatus_state now now' q :
  (getStatus now now' q).2 = cleanupExpiredCommands now q.
Proof. done. Qed.

Lemma pollCommand_wf now q : wf_queue q → wf_queue (pollCommand now q).2.
Proof. rewrite pollCommand_state. apply cleanup_wf. Qed.

Lemma completeCommand_commands commandId success error q :
  commands (completeCommand commandId success error q).2
  = OMap.delete commandId (commands q).
Proof.
  unfold completeCommand.
  destruct (OMap.get commandId (commands q)) eqn:Hget; [done|].
  cbn [snd]. symmetry. apply omap_delete_absent. by apply omap_get_None.
Qed.

Lemma completeCommand_config commandId success error q :
  config (completeCommand commandId success error q).2 = config q.
Proof. unfold completeCommand. by destruct (OMap.get _ _). Qed.

Lemma completeCommand_wf commandId success error q :
  wf_queue q → wf_queue (completeCommand commandId success error q).2.
Proof.
  intros Hwf. apply (wf_queue_sub q); [| | | done].
  - apply completeCommand_config.
  - rewrite completeCommand_commands. apply omap_delete_wf, Hwf.
  - rewrite completeCommand_commands. intros e Hin.
    by apply list_elem_of_filter in Hin as [_ ?].
Qed.

Section run_facts.
Variable randomUUID : nat → string.

Lemma initWorld_wf env : wf_world randomUUID (initWorld env).
Proof.
  split; [apply constructor_wf|]. intros k Hk. by apply elem_of_nil in Hk.
Qed.

Lemma step_wf w e : wf_world randomUUID w → wf_world randomUUID (step randomUUID w e).2.
Proof.
  intros [Hq Hdrawn]. destruct e as [type player timestamp now|now|cid success error|now now'|now];
    cbn [step].
  - pose proof (addCommand_wf type player timestamp now
                  (randomUUID (uuidsDrawn w)) (queue w) Hq) as Hq'.
    unfold addCommand in *.
    destruct (isDuplicateCommand player now (queue w)); [by split|].
    case_bool_decide; [by split|]. cbn [snd] in *.
    split; [done|]. cbn [queue commands uuidsDrawn]. intros k.
    rewrite omap_keys_set. case_decide as Hin.
    + intros (n & ? & ->)%Hdrawn. exists n. split; [lia | done].
    + intros [(n & ? & ->)%Hdrawn| ->%list_elem_of_singleton]%elem_of_app.
      * exists n. split; [lia | done].
      * exists (uuidsDrawn w). split; [lia | done].
  - destruct (pollCommand now (queue w)) as [r q'] eqn:Hpoll. cbn [snd].
    assert (q' = cleanupExpiredCommands now (queue w)) as ->
      by (by rewrite <- pollCommand_state, Hpoll).
    split; cbn [queue uuidsDrawn]; [by apply cleanup_wf|].
    intros k [[k' c] [-> Hin]]%list_elem_of_fmap.
    apply cleanup_elem in Hin as [Hin _]; [|apply Hq].
    apply Hdrawn. by eapply omap_elem_keys.
  - destruct (completeCommand cid success error (queue w)) as [r q'] eqn:Hc.
    cbn [snd].
    assert (q' = (completeCommand cid success error (queue w)).2) as ->
      by (by rewrite Hc).
    split; cbn [queue uuidsDrawn]; [by apply completeCommand_wf|].
    intros k. rewrite completeCommand_commands, omap_keys_delete.
    intros [_ Hin]%list_elem_of_filter. by apply Hdrawn.
  - cbn [getStatus snd].
    split; cbn [queue uuidsDrawn]; [by apply cleanup_wf|].
    intros k [[k' c] [-> Hin]]%list_elem_of_fmap.
    apply cleanup_elem in Hin as [Hin _]; [|apply Hq].
    apply Hdrawn. by eapply omap_elem_keys.
  - cbn [snd].
    split; cbn [queue uuidsDrawn]; [by apply cleanup_wf|].
    intros k [[k' c] [-> Hin]]%list_elem_of_fmap.
    apply cleanup_elem in Hin as [Hin _]; [|apply Hq].
    apply Hdrawn. by eapply omap_elem_keys.
Qed.

Lemma run_cons e tr w :
  run randomUUID (e :: tr) w
  = ((step randomUUID w e).1 :: (run randomUUID tr (step randomUUID w e).2).1,
     (run randomUUID tr (step randomUUID w e).2).2).
Proof.
  change (run randomUUID (e :: tr) w)
    with (let '(o, w') := step randomUUID w e in
          let '(os, w'') := run randomUUID tr w' in (o :: os, w'')).
  destruct (step randomUUID w e) as [o w']. cbn [fst snd].
  by destruct (run randomUUID tr w') as [os w''].
Qed.

Lemma run_wf tr w : wf_world randomUUID w → wf_world randomUUID (run randomUUID tr w).2.
Proof.
  revert w. induction tr as [|e tr IH]; intros w Hw; [done|].
  rewrite run_cons. cbn [snd]. by apply IH, step_wf.
Qed.

(** Every reachable world satisfies the invariant. *)
Lemma reachable_wf env w : reachable randomUUID env w → wf_world randomUUID w.
Proof. intros [tr <-]. apply run_wf, initWorld_wf. Qed.
End run_facts.

(** The scenario of the specification, run on the model: a submission, a
    duplicate one second later, a poll, the completion, a poll. *)
Example alice_scenario :
  run sampleUUID
    [EvAdd "kick" "Alice" 1000 t0;
     EvAdd "kick" "Alice" 1001 (t0 + 1000);
     EvPoll (t0 + 2000);
     EvComplete "cmd-0" true None;
     EvPoll (t0 + 3000)]
    (initWorld defaultEnv)
  = ([OutAdd (AddSuccess "cmd-0" 1);
      OutAdd (AddFailure DUPLICATE_COMMAND
                "Command for player Alice already exists within cooldown period");
      OutPoll (HasCommand (snapshot aliceCommand));
      OutComplete (CompleteSuccess true "cmd-0");
      OutPoll NoCommand],
     {| queue := constructor defaultEnv; uuidsDrawn := 1 |}).
Proof. vm_compute. reflexivity. Qed.

(** ** Completion *)

(** The engine reports an unknown identifier as [COMMAND_NOT_FOUND] and
    leaves the state alone. *)
Lemma completeCommand_unknown commandId success error q :
  OMap.get commandId (commands q) = None →
  completeCommand commandId success error q
  = (CompleteFailure COMMAND_NOT_FOUND
       ("Command " +:+ commandId +:+ " not found"), q).
Proof. intros Hget. unfold completeCommand. by rewrite Hget. Qed.

(** An identifier is unknown once its command was completed ... *)
Lemma completeCommand_forgets commandId success error q :
  OMap.get commandId (commands (completeCommand commandId success error q).2)
  = None.
Proof. rewrite completeCommand_commands. apply omap_get_delete_eq. Qed.

(** ... and once a sweep found its command expired. *)
Lemma cleanup_forgets now q k c :
  OMap.wf (commands q) → (k, c) ∈ commands q → expired now c →
  OMap.get k (commands (cleanupExpiredCommands now q)) = None.
Proof.
  intros Hwf Hin Hexp. apply omap_get_None.
  intros [[k' c'] [Hk Hin']]%list_elem_of_fmap. cbn in Hk. subst k'.
  apply cleanup_elem in Hin' as [Hin' Hlive]; [|done].
  rewrite (omap_wf_functional k c c' _ Hwf Hin Hin') in Hexp.
  unfold expired in Hexp. lia.
Qed.

(** C1. An authenticated, well-formed [POST /api/complete] request is
    answered with status 200, [success: true] and [removed: false], and
    leaves the state as it was, in every state in which its identifier names
    no pending command: the [COMMAND_NOT_FOUND] result of the engine never
    reaches the caller. This covers the same request sent again after a
    first one, in any state, and a request for a command that a sweep has
    found expired. *)
Theorem complete_unknown_id_is_success apiKey req s success error :
  apiKeyMiddleware apiKey req = None →
  method req = "POST" →
  body req = Some {| body_commandId := JsString s;
                     body_success := JsBool success;
                     body_error := error |} →
  isNullish error || isString error = true →
  trim s ≠ "" →
  let ok := {| status := 200;
               json := CompletedBody false (trim s)
                         (Some "Command already completed or not found") |} in
  (∀ q, OMap.get (trim s) (commands q) = None →
        completeHandler apiKey req q = (ok, q))
  ∧ (∀ q, completeHandler apiKey req (completeHandler apiKey req q).2
          = (ok, (completeHandler apiKey req q).2))
  ∧ (∀ q now c, OMap.wf (commands q) → (trim s, c) ∈ commands q →
                expired now c →
                completeHandler apiKey req (cleanupExpiredCommands now q)
                = (ok, cleanupExpiredCommands now q)).
Proof.
  intros Hauth Hmethod Hbody Herror Htrim ok.
  assert (s ≠ "") as Hs by (intros ->; by apply Htrim).
  assert (∀ q, completeHandler apiKey req q
               = match completeCommand (trim s) success
                         match error with JsString e => Some e | _ => None end q
                 with
                 | (CompleteFailure COMMAND_NOT_FOUND _, q') => (ok, q')
                 | (CompleteFailure _ message, q') =>
                     ({| status := 500;
                         json := ErrorBody "COMPLETION_ERROR"
                           (if bool_decide (message = "")
                            then "Failed to complete command" else message) |}, q')
                 | (CompleteSuccess removed commandId, q') =>
                     ({| status := 200;
                         json := CompletedBody removed commandId None |}, q')
                 end) as Hcall.
  { intros q. unfold completeHandler, bodyFields. rewrite Hauth, Hbody, Hmethod.
    rewrite bool_decide_eq_false_2 by (intros ?; done).
    cbn [truthy isBoolean body_commandId body_success body_error].
    rewrite (bool_decide_eq_true_2 _ Hs). cbn [negb orb].
    rewrite (bool_decide_eq_false_2 _ Htrim).
    replace (negb (isNullish error) && negb (isString error)) with false
      by (destruct (isNullish error), (isString error); done).
    done. }
  assert (∀ q, OMap.get (trim s) (commands q) = None →
               completeHandler apiKey req q = (ok, q)) as Hunknown.
  { intros q Hget. by rewrite Hcall, completeCommand_unknown. }
  split_and!; [done | |].
  - intros q. apply Hunknown.
    assert ((completeHandler apiKey req q).2
            = (completeCommand (trim s) success
                 match error with JsString e => Some e | _ => None end q).2) as ->.
    { rewrite Hcall. by destruct (completeCommand _ _ _ _) as [[|[] ?] ?]. }
    apply completeCommand_forgets.
  - intros q now c Hwf Hin Hexp. apply Hunknown. by eapply cleanup_forgets.
Qed.

Lemma complete_unknown_id_is_success_witness :
  completeHandler (Some "secret")
    {| method := "POST"; x_api_key := Some "secret";
       body := Some {| body_commandId := JsString " no-such-id ";
                       body_success := JsBool true;
                       body_error := JsNull |} |}
    (constructor defaultEnv)
  = ({| status := 200;
        json := CompletedBody false "no-such-id"
                  (Some "Command already completed or not found") |},
     constructor defaultEnv).
Proof.
  refine (proj1 (complete_unknown_id_is_success (Some "secret") _ " no-such-id "
                   true JsNull _ _ _ _ _) (constructor defaultEnv) _);
    [reflexivity | reflexivity | reflexivity | reflexivity
    | vm_compute; discriminate | reflexivity].
Defined.

(** C7. Completing a pending command removes it from the store and leaves
    the other commands in their order; the cooldown entry of its player is
    deleted when [success] is true and kept when it is false; the [error]
    argument changes neither the result nor the state. *)
Theorem complete_pending commandId command success error q :
  OMap.get commandId (commands q) = Some command →
  let '(r, q') := completeCommand commandId success error q in
  r = CompleteSuccess true commandId
  ∧ commands q' = OMap.delete commandId (commands q)
  ∧ OMap.get commandId (commands q') = None
  ∧ (∀ k, k ≠ commandId → OMap.get k (commands q') = OMap.get k (commands q))
  ∧ commands q' `sublist_of` commands q
  ∧ playerCooldowns q'
    = (if success then delete (Command.player command) (playerCooldowns q)
       else playerCooldowns q)
  ∧ (playerCooldowns q' !! Command.player command
     = if success then None else playerCooldowns q !! Command.player command)
  ∧ config q' = config q
  ∧ ∀ error', completeCommand commandId success error' q = (r, q').
Proof.
  intros Hget. unfold completeCommand. rewrite Hget. cbn [commands playerCooldowns config].
  split_and!; try done.
  - apply omap_get_delete_eq.
  - intros k Hk. by apply omap_get_delete_ne.
  - apply omap_delete_sublist.
  - destruct success; [apply lookup_delete_eq | done].
Qed.

Lemma complete_pending_witness :
  (completeCommand "cmd-0" true (Some "ignored") aliceQueue).1
  = CompleteSuccess true "cmd-0"
  ∧ commands (completeCommand "cmd-0" true (Some "ignored") aliceQueue).2 = [].
Proof.
  pose proof (complete_pending "cmd-0" aliceCommand true (Some "ignored")
                aliceQueue eq_refl) as H.
  destruct (completeCommand "cmd-0" true (Some "ignored") aliceQueue) as [r q'].
  destruct H as (Hr & Hcmds & _). split; [exact Hr|].
  cbn [snd]. rewrite Hcmds. reflexivity.
Defined.

(** ** Submission *)

Lemma isDuplicateCommand_inCooldown player now q :
  isDuplicateCommand player now q = true → inCooldown player now q.
Proof.
  unfold isDuplicateCommand, inCooldown.
  destruct (playerCooldowns q !! player) as [t|]; [|done].
  case_decide; [done|]. intros Hlt%bool_decide_eq_true. by exists t.
Qed.

Lemma inCooldown_isDuplicateCommand player now q :
  cooldownsNonZero q → inCooldown player now q →
  isDuplicateCommand player now q = true.
Proof.
  intros Hnz (t & Ht & Hlt). unfold isDuplicateCommand. rewrite Ht.
  rewrite decide_False by (by eapply Hnz). by apply bool_decide_eq_true.
Qed.

Lemma cleanup_cooldownsNonZero now q :
  cooldownsNonZero q → cooldownsNonZero (cleanupExpiredCommands now q).
Proof. intros Hnz player t Ht%cleanup_cooldowns. by eapply Hnz. Qed.

(** Cooldown entries are non-zero as long as the clock of the submissions
    is. *)
Lemma step_cooldownsNonZero randomUUID w e :
  clockNonZero e → cooldownsNonZero (queue w) →
  cooldownsNonZero (queue (step randomUUID w e).2).
Proof.
  intros He Hnz.
  destruct e as [type player timestamp now|now|cid success error|now now'|now];
    cbn [step].
  - unfold addCommand. destruct (isDuplicateCommand player now (queue w)); [done|].
    case_bool_decide; [done|]. cbn [snd queue]. intros p t.
    cbn [playerCooldowns].
    intros [[_ <-]|[_ Hold]]%lookup_insert_Some; [done | by eapply Hnz].
  - destruct (pollCommand now (queue w)) as [r q'] eqn:Hpoll. cbn [snd queue].
    replace q' with (pollCommand now (queue w)).2 by (by rewrite Hpoll).
    rewrite pollCommand_state. by apply cleanup_cooldownsNonZero.
  - unfold completeCommand. destruct (OMap.get cid _) as [command|]; [|done].
    cbn [snd queue]. intros p t. cbn [playerCooldowns].
    destruct success; [|by apply Hnz].
    intros [_ Hold]%lookup_delete_Some. by eapply Hnz.
  - cbn [getStatus snd queue]. by apply cleanup_cooldownsNonZero.
  - cbn [snd queue]. by apply cleanup_cooldownsNonZero.
Qed.

Lemma run_cooldownsNonZero randomUUID tr w :
  Forall clockNonZero tr → cooldownsNonZero (queue w) →
  cooldownsNonZero (queue (run randomUUID tr w).2).
Proof.
  revert w. induction tr as [|e tr IH]; intros w Hclock Hnz; [done|].
  apply Forall_cons in Hclock as [He Hclock].
  rewrite run_cons. cbn [snd]. by apply IH, step_cooldownsNonZero.
Qed.

Lemma reachable_cooldownsNonZero randomUUID env tr :
  Forall clockNonZero tr →
  cooldownsNonZero (queue (run randomUUID tr (initWorld env)).2).
Proof.
  intros Hclock. apply run_cooldownsNonZero; [done|].
  intros player t H. cbn in H. by rewrite lookup_empty in H.
Qed.

(** C5. The duplicate check comes first: a player in cooldown is refused
    with [DUPLICATE_COMMAND] whatever the size of the store, also when it is
    full; [QUEUE_FULL] is the answer exactly when the player is not in
    cooldown and the store holds at least [maxQueueSize] commands. Cooldown
    entries are clock readings, which are not 0. *)
Theorem duplicate_check_precedes_capacity type player timestamp now uuid q :
  cooldownsNonZero q →
  let r := (addCommand type player timestamp now uuid q).1 in
  (inCooldown player now q →
   r = AddFailure DUPLICATE_COMMAND
         ("Command for player " +:+ player
            +:+ " already exists within cooldown period"))
  ∧ (∀ message, r = AddFailure QUEUE_FULL message →
     ¬ inCooldown player now q
     ∧ maxQueueSize (config q) ≤ OMap.size (commands q))
  ∧ (¬ inCooldown player now q →
     maxQueueSize (config q) ≤ OMap.size (commands q) →
     r = AddFailure QUEUE_FULL
           ("Queue is full (max " +:+ pretty (maxQueueSize (config q))
              +:+ " commands)")).
Proof.
  intros Hnz. unfold addCommand.
  destruct (isDuplicateCommand player now q) eqn:Hdup.
  - apply isDuplicateCommand_inCooldown in Hdup. cbn. split_and!; done.
  - assert (¬ inCooldown player now q) as Hout.
    { intros Hin. apply (inCooldown_isDuplicateCommand _ _ _ Hnz) in Hin.
      congruence. }
    case_bool_decide; cbn; split_and!; done.
Qed.

Lemma fullQueue_cooldownsNonZero : cooldownsNonZero fullQueue.
Proof.
  intros player t.
  assert (playerCooldowns fullQueue = <["Alice" := t0]> ∅) as ->
    by (vm_compute; reflexivity).
  intros [[_ <-]|[_ H]]%lookup_insert_Some; [done|].
  by rewrite lookup_empty in H.
Qed.

Lemma duplicate_check_precedes_capacity_witness :
  maxQueueSize (config fullQueue) ≤ OMap.size (commands fullQueue)
  ∧ (addCommand "ban" "Alice" 1001 (t0 + 1000) (sampleUUID 1) fullQueue).1
    = AddFailure DUPLICATE_COMMAND
        "Command for player Alice already exists within cooldown period".
Proof.
  split; [vm_compute; discriminate|].
  apply (duplicate_check_precedes_capacity "ban" "Alice" 1001 (t0 + 1000)
           (sampleUUID 1) fullQueue fullQueue_cooldownsNonZero).
  exists t0. split; [reflexivity | vm_compute; reflexivity].
Defined.

(** C6. A submission that fails, with [DUPLICATE_COMMAND] or with
    [QUEUE_FULL], which are its only failures, leaves the whole state, the
    command store and the cooldown table in it, as it was. *)
Theorem failed_submit_leaves_state type player timestamp now uuid q error message :
  (addCommand type player timestamp now uuid q).1 = AddFailure error message →
  (addCommand type player timestamp now uuid q).2 = q
  ∧ commands (addCommand type player timestamp now uuid q).2 = commands q
  ∧ playerCooldowns (addCommand type player timestamp now uuid q).2
    = playerCooldowns q
  ∧ (error = DUPLICATE_COMMAND ∨ error = QUEUE_FULL).
Proof.
  unfold addCommand.
  destruct (isDuplicateCommand player now q).
  - intros [= <- _]. cbn. split_and!; by eauto.
  - case_bool_decide; [|done]. intros [= <- _]. cbn. split_and!; by eauto.
Qed.

Lemma failed_submit_leaves_state_witness :
  (addCommand "kick" "Bob" 1001 (t0 + 1000) (sampleUUID 1) fullQueue).2 = fullQueue.
Proof.
  apply (failed_submit_leaves_state "kick" "Bob" 1001 (t0 + 1000) (sampleUUID 1)
           fullQueue QUEUE_FULL "Queue is full (max 1 commands)").
  vm_compute. reflexivity.
Defined.

(** ** Expiration *)

(** In a well-formed store [now <= expiresAt] reads
    [now <= createdAt + commandExpirationMs]. *)
Lemma cleanup_commands_createdAt now q :
  wf_queue q →
  commands (cleanupExpiredCommands now q)
  = filter (λ e : string * Command.t,
              now ≤ Command.createdAt e.2 + commandExpirationMs (config q))
           (commands q).
Proof.
  intros Hwf. rewrite cleanup_commands by apply Hwf.
  apply filter_ext_elem. intros [k c] Hin. unfold expired. cbn [snd].
  rewrite (wf_expiresAt _ Hwf k c Hin). lia.
Qed.

Lemma pollCommand_result now q :
  (pollCommand now q).1
  = match head (commands (cleanupExpiredCommands now q)) with
    | Some e => HasCommand (snapshot e.2)
    | None => NoCommand
    end.
Proof.
  unfold pollCommand, OMap.first, OMap.values.
  by destruct (commands (cleanupExpiredCommands now q)) as [|[k c] m].
Qed.

(** C2, as stated, does not hold: at the instant [now = createdAt +
    commandExpirationMs] Alice's command is still returned by poll and still
    counted by status. *)
Lemma expiration_at_deadline_counterexample :
  commands aliceQueue = [("cmd-0", aliceCommand)]
  ∧ Command.createdAt aliceCommand + commandExpirationMs (config aliceQueue)
    ≤ t0 + 300000
  ∧ (pollCommand (t0 + 300000) aliceQueue).1 = HasCommand (snapshot aliceCommand)
  ∧ commands (pollCommand (t0 + 300000) aliceQueue).2 = [("cmd-0", aliceCommand)]
  ∧ queueSize (getStatus (t0 + 300000) (t0 + 300000) aliceQueue).1 = 1.
Proof. vm_compute. split_and!; (reflexivity || discriminate). Qed.

(** C2, amended. A pending command stays in the store that poll and status
    read exactly as long as [now <= createdAt + commandExpirationMs]; it is
    gone from it, from the answer of poll and from the count of status once
    [now > createdAt + commandExpirationMs]. Poll answers with the first, and
    status counts all, of the commands with
    [now <= createdAt + commandExpirationMs]. *)
Theorem expiration_is_strict now now' q k c :
  wf_queue q →
  (k, c) ∈ commands q →
  let live := filter (λ e : string * Command.t,
                now ≤ Command.createdAt e.2 + commandExpirationMs (config q))
              (commands q) in
  ((k, c) ∈ commands (pollCommand now q).2
   ↔ now ≤ Command.createdAt c + commandExpirationMs (config q))
  ∧ ((k, c) ∈ commands (getStatus now now' q).2
     ↔ now ≤ Command.createdAt c + commandExpirationMs (config q))
  ∧ (Command.createdAt c + commandExpirationMs (config q) < now →
     ∀ pc, (pollCommand now q).1 = HasCommand pc → polled_id pc ≠ k)
  ∧ (pollCommand now q).1
    = match head live with
      | Some e => HasCommand (snapshot e.2)
      | None => NoCommand
      end
  ∧ queueSize (getStatus now now' q).1 = Z.of_nat (length live).
Proof.
  intros Hwf Hin live.
  rewrite pollCommand_state, getStatus_state, pollCommand_result.
  unfold getStatus. cbn [queueSize fst]. unfold OMap.size.
  rewrite (cleanup_commands_createdAt now q Hwf). fold live.
  assert ((k, c) ∈ live
          ↔ now ≤ Command.createdAt c + commandExpirationMs (config q)) as Hlive.
  { unfold live. rewrite list_elem_of_filter. cbn [snd]. tauto. }
  split_and!; try done.
  intros Hlate pc Hpoll.
  destruct (head live) as [[k' c']|] eqn:Hhead; [|done].
  injection Hpoll as <-. cbn [snd snapshot polled_id].
  apply head_Some_elem_of in Hhead.
  apply list_elem_of_filter in Hhead as [Hc' Hin']. cbn [snd] in Hc'.
  rewrite (wf_ids _ Hwf k' c' Hin'). intros ->.
  rewrite (omap_wf_functional k c' c _ (wf_keys _ Hwf) Hin' Hin) in Hc'. lia.
Qed.

Lemma aliceQueue_wf : wf_queue aliceQueue.
Proof. apply addCommand_wf, constructor_wf. Qed.

Lemma aliceQueue_commands : commands aliceQueue = [("cmd-0", aliceCommand)].
Proof. reflexivity. Qed.

Lemma expiration_is_strict_witness :
  (pollCommand (t0 + 300000) aliceQueue).1 = HasCommand (snapshot aliceCommand)
  ∧ (pollCommand (t0 + 300001) aliceQueue).1 = NoCommand.
Proof.
  assert (("cmd-0", aliceCommand) ∈ commands aliceQueue) as Hin
    by (rewrite aliceQueue_commands; apply list_elem_of_singleton; reflexivity).
  split.
  - destruct (expiration_is_strict (t0 + 300000) (t0 + 300000) aliceQueue
                "cmd-0" aliceCommand aliceQueue_wf Hin) as (_ & _ & _ & -> & _).
    vm_compute. reflexivity.
  - destruct (expiration_is_strict (t0 + 300001) (t0 + 300001) aliceQueue
                "cmd-0" aliceCommand aliceQueue_wf Hin) as (_ & _ & _ & -> & _).
    vm_compute. reflexivity.
Defined.

(** C3, as stated, does not hold, on two counts. Poll at [now = expiresAt]
    still sees Alice's command, for which [now < expiresAt] is false. And with
    [MAX_QUEUE_SIZE=1], Bob's submission 310 s after Alice's is refused with
    [QUEUE_FULL], although the one command counted expired 10 s before: the
    last tick of the 30 s timer came 1 s before the expiry, and
    [addCommand] runs no sweep. *)
Lemma capacity_counts_expired_counterexample :
  (pollCommand (t0 + 300000) aliceQueue).1 = HasCommand (snapshot aliceCommand)
  ∧ ¬ (t0 + 300000 < Command.expiresAt aliceCommand)
  ∧ Command.expiresAt aliceCommand < t0 + 310000
  ∧ run sampleUUID
      [EvAdd "kick" "Alice" 1000 t0;
       EvTick (t0 + 299000);
       EvAdd "kick" "Bob" 2000 (t0 + 310000)]
      (initWorld tinyEnv)
    = ([OutAdd (AddSuccess "cmd-0" 1);
        OutTick;
        OutAdd (AddFailure QUEUE_FULL "Queue is full (max 1 commands)")],
       {| queue := fullQueue; uuidsDrawn := 1 |}).
Proof. vm_compute. split_and!; (reflexivity || discriminate || (intros [=])). Qed.

(** C3, amended. In every well-formed state, so in every reachable one,
    each command of the store that poll or status reads after its sweep at
    [now] satisfies [now <= expiresAt]: the command poll returns and the
    commands status counts are of this kind. *)
Theorem swept_store_is_unexpired now now' q :
  wf_queue q →
  (∀ k c, (k, c) ∈ commands (pollCommand now q).2 → now ≤ Command.expiresAt c)
  ∧ (∀ k c, (k, c) ∈ commands (getStatus now now' q).2 →
       now ≤ Command.expiresAt c)
  ∧ (∀ pc, (pollCommand now q).1 = HasCommand pc →
       ∃ c, (polled_id pc, c) ∈ commands q ∧ pc = snapshot c
            ∧ now ≤ Command.expiresAt c)
  ∧ queueSize (getStatus now now' q).1
    = Z.of_nat (length (filter (λ e : string * Command.t,
                                  now ≤ Command.expiresAt e.2) (commands q))).
Proof.
  intros Hwf. pose proof (wf_keys _ Hwf) as Hkeys.
  rewrite pollCommand_state, getStatus_state, pollCommand_result.
  split_and!.
  - intros k c. by apply cleanup_unexpired.
  - intros k c. by apply cleanup_unexpired.
  - intros pc Hpoll.
    destruct (head _) as [[k c]|] eqn:Hhead; [|done].
    injection Hpoll as <-. apply head_Some_elem_of in Hhead.
    apply cleanup_elem in Hhead as [Hin Hlive]; [|done].
    exists c. cbn [snd snapshot polled_id].
    by rewrite (wf_ids _ Hwf k c Hin).
  - unfold getStatus. cbn [queueSize fst]. unfold OMap.size.
    rewrite cleanup_commands by done. do 2 f_equal.
    apply list_filter_iff. intros [k c]. unfold expired. cbn [snd]. lia.
Qed.

Lemma swept_store_is_unexpired_witness :
  queueSize (getStatus (t0 + 300001) (t0 + 300001) aliceQueue).1 = 0.
Proof.
  destruct (swept_store_is_unexpired (t0 + 300001) (t0 + 300001) aliceQueue
              aliceQueue_wf) as (_ & _ & _ & ->).
  vm_compute. reflexivity.
Defined.

(** ** Accepted submissions *)

Lemma omap_get_set_ne {V} k k' (v : V) (m : OMap.t V) :
  k ≠ k' → OMap.get k' (OMap.set k v m) = OMap.get k' m.
Proof.
  intros Hne. induction m as [|[k0 v0] m IH]; cbn [OMap.set OMap.get].
  - by rewrite decide_False.
  - destruct (decide (k = k0)) as [->|Hk0]; cbn [OMap.get].
    + by rewrite !decide_False.
    + by rewrite IH.
Qed.

Lemma addCommand_accepts type player timestamp now uuid q :
  isDuplicateCommand player now q = false →
  OMap.size (commands q) < maxQueueSize (config q) →
  addCommand type player timestamp now uuid q
  = (AddSuccess uuid
       (OMap.size (OMap.set uuid
          (submittedCommand (config q) uuid
             {| sub_type := type; sub_player := player;
                sub_timestamp := timestamp; sub_now := now |}) (commands q))),
     {| commands :=
          OMap.set uuid
            (submittedCommand (config q) uuid
               {| sub_type := type; sub_player := player;
                  sub_timestamp := timestamp; sub_now := now |}) (commands q);
        playerCooldowns := <[player := now]> (playerCooldowns q);
        config := config q |}).
Proof.
  intros Hdup Hsize. unfold addCommand. rewrite Hdup.
  by rewrite bool_decide_eq_false_2 by lia.
Qed.

Lemma addCommand_accepted type player timestamp now uuid q commandId position :
  (addCommand type player timestamp now uuid q).1 = AddSuccess commandId position →
  isDuplicateCommand player now q = false
  ∧ OMap.size (commands q) < maxQueueSize (config q)
  ∧ commandId = uuid.
Proof.
  unfold addCommand. destruct (isDuplicateCommand player now q); [done|].
  case_bool_decide; [done|]. intros [= <- _]. split_and!; [done | lia | done].
Qed.

Lemma sampleUUID_inj : Inj (=) (=) sampleUUID.
Proof.
  intros n1 n2 H. unfold sampleUUID in H.
  by apply (inj (String.app "cmd-")), (inj pretty) in H.
Qed.

Section accepted.
Variable randomUUID : nat → string.
Hypothesis randomUUID_inj : Inj (=) (=) randomUUID.

(** The next identifier of the generator is not a key of the store. *)
Lemma next_uuid_fresh w :
  wf_world randomUUID w →
  randomUUID (uuidsDrawn w) ∉ OMap.keys (commands (queue w)).
Proof.
  intros Hw Hin. apply (wf_world_drawn _ _ Hw) in Hin as (n & Hn & Heq).
  apply randomUUID_inj in Heq. lia.
Qed.

Lemma step_uuidsDrawn_mono w e :
  (uuidsDrawn w ≤ uuidsDrawn (step randomUUID w e).2)%nat.
Proof.
  destruct e as [type player timestamp now|now|cid success error|now now'|now];
    cbn [step].
  - destruct (addCommand _ _ _ _ _ _) as [[]]; cbn; lia.
  - by destruct (pollCommand _ _).
  - by destruct (completeCommand _ _ _ _).
  - done.
  - done.
Qed.

Lemma step_returnedId w e x :
  returnedId (step randomUUID w e).1 = Some x →
  x = randomUUID (uuidsDrawn w)
  ∧ uuidsDrawn (step randomUUID w e).2 = S (uuidsDrawn w).
Proof.
  destruct e as [type player timestamp now|now|cid success error|now now'|now];
    cbn [step].
  - destruct (addCommand _ _ _ _ _ _) as [r q'] eqn:Hadd. cbn [fst snd].
    destruct r as [commandId position|]; [|done]. cbn. intros [= <-].
    pose proof (addCommand_accepted type player timestamp now
                  (randomUUID (uuidsDrawn w)) (queue w) commandId position) as H.
    rewrite Hadd in H. by destruct (H eq_refl) as (_ & _ & ->).
  - by destruct (pollCommand _ _).
  - by destruct (completeCommand _ _ _ _).
  - done.
  - done.
Qed.

(** The identifiers a run returns were drawn during the run. *)
Lemma run_returnedIds tr w x :
  x ∈ returnedIds (run randomUUID tr w).1 →
  ∃ n, (uuidsDrawn w ≤ n < uuidsDrawn (run randomUUID tr w).2)%nat
       ∧ x = randomUUID n.
Proof.
  revert w. induction tr as [|e tr IH]; intros w.
  - intros Hx. by apply elem_of_nil in Hx.
  - rewrite run_cons. cbn [fst snd]. unfold returnedIds. cbn [omap list_omap].
    pose proof (step_uuidsDrawn_mono w e) as Hmono.
    destruct (returnedId (step randomUUID w e).1) as [y|] eqn:Hret.
    + apply step_returnedId in Hret as [-> Hdrawn].
      intros [->|Hx]%elem_of_cons.
      * exists (uuidsDrawn w). split; [|done].
        assert (uuidsDrawn (step randomUUID w e).2
                ≤ uuidsDrawn (run randomUUID tr (step randomUUID w e).2).2)%nat.
        { clear. generalize (step randomUUID w e).2. clear.
          induction tr as [|e tr IH]; intros w; [done|].
          rewrite run_cons. cbn [snd].
          etrans; [apply step_uuidsDrawn_mono | apply IH]. }
        lia.
      * apply IH in Hx as (n & Hn & ->). exists n. split; [lia | done].
    + intros Hx. apply IH in Hx as (n & Hn & ->). exists n. split; [lia | done].
Qed.

(** C9. In a world a run has led to, a submission that passes the duplicate
    and the capacity check draws the next identifier of the generator, which
    differs from every identifier the run has returned and is not in the
    store; it appends a command with [createdAt = now],
    [expiresAt = now + commandExpirationMs] and [attempts = 0] to the store,
    sets the cooldown entry of the player to [now], and returns the
    identifier with the size of the store after the insertion, which is the
    old size plus one. The generator yields pairwise distinct values. *)
Theorem accepted_submit env tr outs w type player timestamp now :
  run randomUUID tr (initWorld env) = (outs, w) →
  isDuplicateCommand player now (queue w) = false →
  OMap.size (commands (queue w)) < maxQueueSize (config (queue w)) →
  let uuid := randomUUID (uuidsDrawn w) in
  let command :=
    {| Command.id := uuid;
       Command.type := type;
       Command.player := player;
       Command.timestamp := timestamp;
       Command.attempts := 0;
       Command.createdAt := now;
       Command.expiresAt := now + commandExpirationMs (config (queue w)) |} in
  let q' :=
    {| commands := commands (queue w) ++ [(uuid, command)];
       playerCooldowns := <[player := now]> (playerCooldowns (queue w));
       config := config (queue w) |} in
  (uuid ∉ returnedIds outs)
  ∧ (uuid ∉ OMap.keys (commands (queue w)))
  ∧ step randomUUID w (EvAdd type player timestamp now)
    = (OutAdd (AddSuccess uuid (OMap.size (commands q'))),
       {| queue := q'; uuidsDrawn := S (uuidsDrawn w) |})
  ∧ OMap.size (commands q') = OMap.size (commands (queue w)) + 1
  ∧ playerCooldowns q' !! player = Some now.
Proof.
  intros Hrun Hdup Hsize uuid command q'.
  assert (wf_world randomUUID w) as Hw.
  { replace w with (run randomUUID tr (initWorld env)).2 by (by rewrite Hrun).
    apply run_wf, initWorld_wf. }
  pose proof (next_uuid_fresh w Hw) as Hfresh.
  split_and!.
  - intros Hin.
    replace outs with (run randomUUID tr (initWorld env)).1 in Hin
      by (by rewrite Hrun).
    apply run_returnedIds in Hin as (n & Hn & Heq). rewrite Hrun in Hn.
    apply randomUUID_inj in Heq. cbn [snd] in Hn. lia.
  - done.
  - cbn [step]. rewrite addCommand_accepts by done.
    unfold q', command, uuid, submittedCommand. cbn [sub_type sub_player sub_timestamp sub_now].
    by rewrite omap_set_fresh.
  - unfold q', OMap.size. cbn [commands]. rewrite length_app. cbn [length]. lia.
  - apply lookup_insert_eq.
Qed.

End accepted.

Lemma accepted_submit_witness :
  (step sampleUUID {| queue := aliceQueue; uuidsDrawn := 1 |}
     (EvAdd "ban" "Bob" 2000 (t0 + 5))).1
  = OutAdd (AddSuccess "cmd-1" 2)
  ∧ ("cmd-1" ∉ returnedIds [OutAdd (AddSuccess "cmd-0" 1)]).
Proof.
  destruct (accepted_submit sampleUUID sampleUUID_inj defaultEnv
              [EvAdd "kick" "Alice" 1000 t0] [OutAdd (AddSuccess "cmd-0" 1)]
              {| queue := aliceQueue; uuidsDrawn := 1 |}
              "ban" "Bob" 2000 (t0 + 5))
    as (Hfresh & _ & Hstep & _); [reflexivity | reflexivity | reflexivity |].
  split; [by rewrite Hstep | exact Hfresh].
Defined.

(** ** Two pending commands of one player *)

Section same_player.
Variable randomUUID : nat → string.
Hypothesis randomUUID_inj : Inj (=) (=) randomUUID.

Lemma step_add_accepts w type player timestamp now :
  isDuplicateCommand player now (queue w) = false →
  OMap.size (commands (queue w)) < maxQueueSize (config (queue w)) →
  let uuid := randomUUID (uuidsDrawn w) in
  let command :=
    submittedCommand (config (queue w)) uuid
      {| sub_type := type; sub_player := player;
         sub_timestamp := timestamp; sub_now := now |} in
  step randomUUID w (EvAdd type player timestamp now)
  = (OutAdd (AddSuccess uuid (OMap.size (OMap.set uuid command (commands (queue w))))),
     {| queue :=
          {| commands := OMap.set uuid command (commands (queue w));
             playerCooldowns := <[player := now]> (playerCooldowns (queue w));
             config := config (queue w) |};
        uuidsDrawn := S (uuidsDrawn w) |}).
Proof.
  intros Hdup Hsize uuid command. cbn [step].
  by rewrite addCommand_accepts by done.
Qed.

Lemma step_add_accepted w type player timestamp now commandId position w' :
  step randomUUID w (EvAdd type player timestamp now)
  = (OutAdd (AddSuccess commandId position), w') →
  isDuplicateCommand player now (queue w) = false
  ∧ OMap.size (commands (queue w)) < maxQueueSize (config (queue w))
  ∧ commandId = randomUUID (uuidsDrawn w).
Proof.
  cbn [step]. destruct (addCommand _ _ _ _ _ _) as [r q'] eqn:Hadd.
  intros [= -> _].
  pose proof (addCommand_accepted type player timestamp now
                (randomUUID (uuidsDrawn w)) (queue w) commandId position) as H.
  rewrite Hadd in H. by apply H.
Qed.

(** C10. Let a first submission for [player] at [t1] be accepted, and a
    second one for the same player follow at [t2], at least the cooldown
    window later, while the store has room. Then the second is accepted too,
    both commands are pending, and the one cooldown entry of the player
    holds [t2]. Completing the first command with [success = true] deletes
    that entry and leaves the second command pending, so that a third
    submission for the player is accepted at any time [t3], also within the
    cooldown window after [t2]. *)
Theorem early_completion_lifts_later_cooldown
    w type1 type2 type3 player ts1 ts2 ts3 t1 t2 t3 error id1 pos1 w1 :
  wf_world randomUUID w →
  step randomUUID w (EvAdd type1 player ts1 t1)
  = (OutAdd (AddSuccess id1 pos1), w1) →
  duplicateCooldownMs (config (queue w)) ≤ t2 - t1 →
  OMap.size (commands (queue w1)) < maxQueueSize (config (queue w1)) →
  ∃ id2 pos2 w2 c1 c2 w3 id3 pos3 w4,
    step randomUUID w1 (EvAdd type2 player ts2 t2)
    = (OutAdd (AddSuccess id2 pos2), w2)
    ∧ id1 ≠ id2
    ∧ OMap.get id1 (commands (queue w2)) = Some c1
    ∧ Command.player c1 = player ∧ Command.createdAt c1 = t1
    ∧ OMap.get id2 (commands (queue w2)) = Some c2
    ∧ Command.player c2 = player ∧ Command.createdAt c2 = t2
    ∧ playerCooldowns (queue w2) !! player = Some t2
    ∧ step randomUUID w2 (EvComplete id1 true error)
      = (OutComplete (CompleteSuccess true id1), w3)
    ∧ playerCooldowns (queue w3) !! player = None
    ∧ OMap.get id2 (commands (queue w3)) = Some c2
    ∧ step randomUUID w3 (EvAdd type3 player ts3 t3)
      = (OutAdd (AddSuccess id3 pos3), w4).
Proof.
  intros Hw Hstep1 Hgap Hroom.
  destruct (step_add_accepted _ _ _ _ _ _ _ _ Hstep1) as (Hdup1 & Hsize1 & ->).
  rewrite step_add_accepts in Hstep1 by done. injection Hstep1 as _ <-.
  cbn [queue commands config uuidsDrawn] in Hroom.
  set (n := uuidsDrawn w) in *.
  set (c1 := submittedCommand (config (queue w)) (randomUUID n)
               {| sub_type := type1; sub_player := player;
                  sub_timestamp := ts1; sub_now := t1 |}) in *.
  set (q1 := {| commands := OMap.set (randomUUID n) c1 (commands (queue w));
                playerCooldowns := <[player := t1]> (playerCooldowns (queue w));
                config := config (queue w) |}) in *.
  assert (randomUUID n ≠ randomUUID (S n)) as Hne
    by (intros Heq%randomUUID_inj; lia).
  (* the second submission *)
  assert (isDuplicateCommand player t2 q1 = false) as Hdup2.
  { unfold isDuplicateCommand, q1. cbn [playerCooldowns config].
    rewrite lookup_insert_eq. case_decide; [done|].
    apply bool_decide_eq_false_2. lia. }
  set (w1 := {| queue := q1; uuidsDrawn := S n |}).
  pose proof (step_add_accepts w1 type2 player ts2 t2 Hdup2 Hroom) as Hstep2.
  cbn zeta in Hstep2. cbn [queue uuidsDrawn w1] in Hstep2.
  set (c2 := submittedCommand (config q1) (randomUUID (S n))
               {| sub_type := type2; sub_player := player;
                  sub_timestamp := ts2; sub_now := t2 |}) in *.
  set (q2 := {| commands := OMap.set (randomUUID (S n)) c2 (commands q1);
                playerCooldowns := <[player := t2]> (playerCooldowns q1);
                config := config q1 |}) in *.
  assert (OMap.get (randomUUID n) (commands q2) = Some c1) as Hget1.
  { unfold q2, q1. cbn [commands].
    rewrite omap_get_set_ne by done. apply omap_get_set_eq. }
  assert (OMap.get (randomUUID (S n)) (commands q2) = Some c2) as Hget2
    by apply omap_get_set_eq.
  (* the completion of the first command *)
  set (q3 := {| commands := OMap.delete (randomUUID n) (commands q2);
                playerCooldowns := delete player (playerCooldowns q2);
                config := config q2 |}).
  assert (completeCommand (randomUUID n) true error q2
          = (CompleteSuccess true (randomUUID n), q3)) as Hcomplete.
  { unfold completeCommand. rewrite Hget1. done. }
  (* the third submission *)
  assert (isDuplicateCommand player t3 q3 = false) as Hdup3.
  { unfold isDuplicateCommand, q3. cbn [playerCooldowns].
    by rewrite lookup_delete_eq. }
  assert (OMap.size (commands q3) < maxQueueSize (config q3)) as Hroom3.
  { unfold q3, q2. cbn [commands config]. unfold OMap.size in *.
    assert (length (OMap.delete (randomUUID n)
                      (OMap.set (randomUUID (S n)) c2 (commands q1)))
            < length (OMap.set (randomUUID (S n)) c2 (commands q1)))%nat as Hlt.
    { apply (length_filter_lt _ _ (randomUUID n, c1)); [|cbn; tauto].
      by apply omap_get_Some_elem. }
    pose proof (omap_length_set (randomUUID (S n)) c2 (commands q1)) as Hlen.
    assert (Z.of_nat (length (commands q1)) < maxQueueSize (config q1))
      as Hroom1 by exact Hroom.
    case_decide; lia. }
  set (w3 := {| queue := q3; uuidsDrawn := S (S n) |}).
  pose proof (step_add_accepts w3 type3 player ts3 t3 Hdup3 Hroom3) as Hstep3.
  cbn zeta in Hstep3.
  eexists (randomUUID (S n)), _, _, c1, c2, w3, _, _, _.
  split_and!; [exact Hstep2 | done | done | done | done | done | done | done
              | apply lookup_insert_eq | | apply lookup_delete_eq | | exact Hstep3].
  - cbn [step queue]. by rewrite Hcomplete.
  - unfold w3, q3. cbn [queue commands]. by rewrite omap_get_delete_ne.
Qed.
End same_player.

Lemma early_completion_lifts_later_cooldown_witness :
  ∃ w4,
    run sampleUUID
      [EvAdd "kick" "Alice" 1000 t0;
       EvAdd "ban" "Alice" 2000 (t0 + 60000);
       EvComplete "cmd-0" true None;
       EvAdd "kick" "Alice" 3000 (t0 + 60001)]
      (initWorld defaultEnv)
    = ([OutAdd (AddSuccess "cmd-0" 1);
        OutAdd (AddSuccess "cmd-1" 2);
        OutComplete (CompleteSuccess true "cmd-0");
        OutAdd (AddSuccess "cmd-2" 2)], w4).
Proof.
  destruct (early_completion_lifts_later_cooldown sampleUUID sampleUUID_inj
              (initWorld defaultEnv) "kick" "ban" "kick" "Alice"
              1000 2000 3000 t0 (t0 + 60000) (t0 + 60001) None "cmd-0" 1
              {| queue := aliceQueue; uuidsDrawn := 1 |})
    as (id2 & pos2 & w2 & c1 & c2 & w3 & id3 & pos3 & w4 & H2 & _ & _ & _ & _
        & _ & _ & _ & _ & H3 & _ & _ & H4);
    [apply initWorld_wf | reflexivity | vm_compute; discriminate
    | vm_compute; reflexivity |].
  exists w4. rewrite !run_cons. cbn [run].
  change (step sampleUUID (initWorld defaultEnv) (EvAdd "kick" "Alice" 1000 t0))
    with (OutAdd (AddSuccess "cmd-0" 1), {| queue := aliceQueue; uuidsDrawn := 1 |}).
  cbn [fst snd]. rewrite H2. cbn [fst snd].
  injection H2 as <- <- <-. rewrite H3. cbn [fst snd].
  injection H3 as <-. rewrite H4. cbn [fst snd].
  injection H4 as <- <- <-. reflexivity.
Defined.

(** ** Polling *)

Lemma cleanup_head now q k c :
  OMap.wf (commands q) →
  head (commands q) = Some (k, c) →
  now ≤ Command.expiresAt c →
  head (commands (cleanupExpiredCommands now q)) = Some (k, c).
Proof.
  intros Hwf Hhead Hlive. rewrite cleanup_commands by done.
  destruct (commands q) as [|e m]; [done|]. injection Hhead as ->.
  rewrite filter_cons_True; [done|]. unfold expired. cbn [snd]. lia.
Qed.

Lemma omap_head_set {V} k (v : V) (m : OMap.t V) e :
  head m = Some e → k ≠ e.1 → head (OMap.set k v m) = Some e.
Proof.
  destruct m as [|[k' v'] m]; [done|]. intros [= <-] Hne. cbn [OMap.set fst] in *.
  by rewrite decide_False.
Qed.

Section polling.
Variable randomUUID : nat → string.
Hypothesis randomUUID_inj : Inj (=) (=) randomUUID.

(** A key of the store after a call was there before, or is the identifier
    the call returned. *)
Lemma step_keys w e k :
  k ∈ OMap.keys (commands (queue (step randomUUID w e).2)) →
  k ∈ OMap.keys (commands (queue w)) ∨ returnedId (step randomUUID w e).1 = Some k.
Proof.
  destruct e as [type player timestamp now|now|cid success error|now now'|now];
    cbn [step].
  - unfold addCommand. destruct (isDuplicateCommand player now (queue w)); [by left|].
    case_bool_decide; [by left|]. cbn [fst snd queue commands returnedId].
    rewrite omap_keys_set. case_decide; [by left|].
    intros [?| ->%list_elem_of_singleton]%elem_of_app; [by left | by right].
  - pose proof (pollCommand_state now (queue w)) as H.
    destruct (pollCommand now (queue w)) as [r q']. cbn in H. subst q'.
    cbn [snd queue]. intros [[k' c] [-> Hin]]%list_elem_of_fmap. left.
    unfold cleanupExpiredCommands in Hin. cbn [commands] in Hin.
    rewrite sweep_fold_commands in Hin. apply list_elem_of_filter in Hin as [_ Hin].
    by eapply omap_elem_keys.
  - pose proof (completeCommand_commands cid success error (queue w)) as H.
    destruct (completeCommand _ _ _ _) as [r q']. cbn [snd queue] in *.
    rewrite H, omap_keys_delete. intros [_ ?]%list_elem_of_filter. by left.
  - cbn [getStatus snd queue]. intros [[k' c] [-> Hin]]%list_elem_of_fmap. left.
    unfold cleanupExpiredCommands in Hin. cbn [commands] in Hin.
    rewrite sweep_fold_commands in Hin. apply list_elem_of_filter in Hin as [_ Hin].
    by eapply omap_elem_keys.
  - cbn [snd queue]. intros [[k' c] [-> Hin]]%list_elem_of_fmap. left.
    unfold cleanupExpiredCommands in Hin. cbn [commands] in Hin.
    rewrite sweep_fold_commands in Hin. apply list_elem_of_filter in Hin as [_ Hin].
    by eapply omap_elem_keys.
Qed.

Lemma step_heads k c w e :
  heads randomUUID k c w → ¬ isComplete e → sweptBy (Command.expiresAt c) e →
  heads randomUUID k c (step randomUUID w e).2
  ∧ ∀ r, (step randomUUID w e).1 = OutPoll r → r = HasCommand (snapshot c).
Proof.
  intros [Hw Hhead] Hcomplete Hswept.
  split; [split; [by apply step_wf|] |].
  - destruct e as [type player timestamp now|now|cid success error|now now'|now];
      cbn [step]; cbn in Hswept.
    + unfold addCommand.
      destruct (isDuplicateCommand player now (queue w)); [done|].
      case_bool_decide; [done|]. cbn [snd queue commands].
      apply omap_head_set; [done|]. cbn [fst]. intros Heq.
      apply (next_uuid_fresh randomUUID randomUUID_inj w Hw).
      rewrite Heq. apply head_Some_elem_of in Hhead.
      by eapply omap_elem_keys.
    + destruct (pollCommand now (queue w)) as [r q'] eqn:Hpoll. cbn [snd queue].
      replace q' with (pollCommand now (queue w)).2 by (by rewrite Hpoll).
      rewrite pollCommand_state. apply cleanup_head; [apply Hw | done | done].
    + by destruct Hcomplete.
    + cbn [getStatus snd queue]. apply cleanup_head; [apply Hw | done | done].
    + cbn [snd queue]. apply cleanup_head; [apply Hw | done | done].
  - destruct e as [type player timestamp now|now|cid success error|now now'|now];
      cbn [step]; cbn in Hswept.
    + by destruct (addCommand _ _ _ _ _ _).
    + destruct (pollCommand now (queue w)) as [r' q'] eqn:Hpoll. cbn [fst].
      intros r [= <-].
      replace r' with (pollCommand now (queue w)).1 by (by rewrite Hpoll).
      rewrite pollCommand_result.
      by rewrite (cleanup_head now (queue w) k c) by (done || apply Hw).
    + by destruct Hcomplete.
    + done.
    + done.
Qed.

Lemma run_heads k c tr w :
  heads randomUUID k c w →
  Forall (λ e, ¬ isComplete e) tr →
  Forall (sweptBy (Command.expiresAt c)) tr →
  heads randomUUID k c (run randomUUID tr w).2
  ∧ ∀ r, OutPoll r ∈ (run randomUUID tr w).1 → r = HasCommand (snapshot c).
Proof.
  revert w. induction tr as [|e tr IH]; intros w Hw Hcomplete Hswept.
  - split; [done|]. intros r Hr. by apply elem_of_nil in Hr.
  - apply Forall_cons in Hcomplete as [He Hcomplete].
    apply Forall_cons in Hswept as [Hse Hswept].
    destruct (step_heads k c w e Hw He Hse) as [Hw' Hout].
    destruct (IH _ Hw' Hcomplete Hswept) as [Hw'' Houts].
    rewrite run_cons. cbn [fst snd]. split; [done|].
    intros r [Hr|Hr]%elem_of_cons; [by apply Hout | by apply Houts].
Qed.

(** Once its command has left the store, an identifier does not come
    back, whatever is called. *)
Lemma step_retired k w e :
  retired randomUUID k w → retired randomUUID k (step randomUUID w e).2.
Proof.
  intros (Hw & Hk & n & Hn & Heq). split_and!.
  - by apply step_wf.
  - intros [Hin|Hret]%step_keys; [done|].
    apply step_returnedId in Hret as [Hret _].
    rewrite Heq in Hret. apply randomUUID_inj in Hret. lia.
  - exists n. split; [|done].
    pose proof (step_uuidsDrawn_mono randomUUID w e). lia.
Qed.

Lemma run_retired k tr w :
  retired randomUUID k w → retired randomUUID k (run randomUUID tr w).2.
Proof.
  revert w. induction tr as [|e tr IH]; intros w Hw; [done|].
  rewrite run_cons. cbn [snd]. by apply IH, step_retired.
Qed.

(** A sweep that reads the clock after [expiresAt] of the command at the
    head removes it. *)
Lemma step_heads_expired k c w e now :
  heads randomUUID k c w → sweepTime e = Some now →
  Command.expiresAt c < now →
  retired randomUUID k (step randomUUID w e).2.
Proof.
  intros [Hw Hhead] Hsweep Hlate.
  assert (queue (step randomUUID w e).2 = cleanupExpiredCommands now (queue w)
          ∧ uuidsDrawn (step randomUUID w e).2 = uuidsDrawn w) as [Hq Hd].
  { destruct e as [type player timestamp t|t|cid success error|t t'|t];
      try discriminate; injection Hsweep as ->; cbn [step].
    - rewrite <- pollCommand_state. by destruct (pollCommand now (queue w)).
    - done.
    - done. }
  apply head_Some_elem_of in Hhead. split_and!.
  - by apply step_wf.
  - rewrite Hq. intros [[k' c'] [Hk Hin]]%list_elem_of_fmap.
    cbn [fst] in Hk. subst k'.
    apply cleanup_elem in Hin as [Hin Hlive]; [|apply Hw].
    assert (c' = c) as ->
      by (eapply omap_wf_functional; [apply Hw | done | done]).
    lia.
  - rewrite Hd. apply (wf_world_drawn _ _ Hw). by eapply omap_elem_keys.
Qed.

Lemma run_heads_retired k c tr w :
  heads randomUUID k c w →
  Forall (λ e, ¬ isComplete e) tr →
  ¬ Forall (sweptBy (Command.expiresAt c)) tr →
  retired randomUUID k (run randomUUID tr w).2.
Proof.
  revert w. induction tr as [|e tr IH]; intros w Hw Hcomplete Hlate.
  - destruct Hlate. constructor.
  - apply Forall_cons in Hcomplete as [He Hcomplete]. rewrite run_cons. cbn [snd].
    destruct (decide (sweptBy (Command.expiresAt c) e)) as [Hse|Hse].
    + destruct (step_heads k c w e Hw He Hse) as [Hw' _].
      apply IH; [done | done |]. intros Htr. apply Hlate. by constructor.
    + apply run_retired. unfold sweptBy in Hse.
      destruct (sweepTime e) as [t|] eqn:Ht; [|done].
      eapply step_heads_expired; [done | done | lia].
Qed.

(** The command a poll returns is pending and unexpired at the reading of
    the poll. *)
Lemma pollCommand_pending now q p :
  wf_queue q → (pollCommand now q).1 = HasCommand p →
  ∃ c, (polled_id p, c) ∈ commands q
       ∧ now ≤ Command.expiresAt c
       ∧ p = snapshot c.
Proof.
  intros Hq. rewrite pollCommand_result.
  destruct (head (commands (cleanupExpiredCommands now q)))
    as [[k c]|] eqn:Hhead; [|done].
  cbn [snd]. intros [= <-]. apply head_Some_elem_of in Hhead.
  apply cleanup_elem in Hhead as [Hin Hlive]; [|apply Hq].
  pose proof (wf_ids _ Hq k c Hin) as Hid. subst k.
  by exists c.
Qed.

(** C8, amended. In a well-formed world with at least one pending command
    that is unexpired at [now], a poll at [now] returns the copy of a stored
    command [c] that is unexpired at [now] and whose [attempts] is 0, and
    leaves [c] at the head of the store. After any further calls other than
    complete (submissions, polls, status requests, ticks of the timer), a
    poll at [now'] returns the id of [c] if and only if none of the sweeps
    run in between, nor its own, read the clock after [expiresAt c]. As long
    as that is so, [c] still heads the store, unchanged, and each of these
    polls returns the same copy. *)
Theorem poll_is_stable w now k0 c0 :
  wf_world randomUUID w →
  (k0, c0) ∈ commands (queue w) →
  now ≤ Command.expiresAt c0 →
  ∃ c,
    OMap.get (Command.id c) (commands (queue w)) = Some c
    ∧ Command.attempts c = 0
    ∧ now ≤ Command.expiresAt c
    ∧ (pollCommand now (queue w)).1 = HasCommand (snapshot c)
    ∧ head (commands (pollCommand now (queue w)).2) = Some (Command.id c, c)
    ∧ ∀ tr now',
        Forall (λ e, ¬ isComplete e) tr →
        let w1 := {| queue := (pollCommand now (queue w)).2;
                     uuidsDrawn := uuidsDrawn w |} in
        let w2 := (run randomUUID tr w1).2 in
        ((∃ p, (pollCommand now' (queue w2)).1 = HasCommand p
               ∧ polled_id p = Command.id c)
         ↔ Forall (sweptBy (Command.expiresAt c)) tr
           ∧ now' ≤ Command.expiresAt c)
        ∧ (Forall (sweptBy (Command.expiresAt c)) tr →
           (∀ r, OutPoll r ∈ (run randomUUID tr w1).1
                 → r = HasCommand (snapshot c))
           ∧ head (commands (queue w2)) = Some (Command.id c, c)
           ∧ (now' ≤ Command.expiresAt c →
              (pollCommand now' (queue w2)).1 = HasCommand (snapshot c)
              ∧ head (commands (pollCommand now' (queue w2)).2)
                = Some (Command.id c, c))).
Proof.
  intros Hw Hin0 Hlive0.
  pose proof (wf_world_queue _ _ Hw) as Hq.
  pose proof (wf_keys _ Hq) as Hkeys.
  rewrite pollCommand_state, pollCommand_result.
  destruct (head (commands (cleanupExpiredCommands now (queue w))))
    as [[k c]|] eqn:Hhead.
  2:{ apply head_None in Hhead.
      assert ((k0, c0) ∈ commands (cleanupExpiredCommands now (queue w))) as Hin
        by (by apply cleanup_elem).
      rewrite Hhead in Hin. by apply elem_of_nil in Hin. }
  assert ((k, c) ∈ commands (queue w) ∧ now ≤ Command.expiresAt c) as [Hin Hlive].
  { apply head_Some_elem_of in Hhead. by apply cleanup_elem in Hhead. }
  pose proof (wf_ids _ Hq k c Hin) as Hid. subst k.
  exists c.
  split_and!; [by apply omap_elem_get | by eapply wf_attempts | done | done | done |].
  intros tr now' Hcomplete w1 w2.
  assert (heads randomUUID (Command.id c) c w1) as Hw1.
  { split; [|done]. pose proof (step_wf randomUUID w (EvPoll now) Hw) as H.
    cbn [step] in H. destruct (pollCommand now (queue w)) as [r q'] eqn:Hpoll.
    cbn [snd] in H. unfold w1.
    replace (cleanupExpiredCommands now (queue w)) with q'; [done|].
    by rewrite <- pollCommand_state, Hpoll. }
  assert (Forall (sweptBy (Command.expiresAt c)) tr →
          (∀ r, OutPoll r ∈ (run randomUUID tr w1).1
                → r = HasCommand (snapshot c))
          ∧ head (commands (queue w2)) = Some (Command.id c, c)
          ∧ (now' ≤ Command.expiresAt c →
             (pollCommand now' (queue w2)).1 = HasCommand (snapshot c)
             ∧ head (commands (pollCommand now' (queue w2)).2)
               = Some (Command.id c, c))) as Hstable.
  { intros Hswept.
    destruct (run_heads (Command.id c) c tr w1 Hw1 Hcomplete Hswept)
      as [[Hw2 Hhead2] Houts].
    fold w2 in Hw2, Hhead2.
    split_and!; [done | done |]. intros Hlive'. split.
    - rewrite pollCommand_result.
      by rewrite (cleanup_head now' (queue w2) (Command.id c) c)
        by (done || apply Hw2).
    - rewrite pollCommand_state. apply cleanup_head; [apply Hw2 | done | done]. }
  split; [|done]. split.
  - intros (p & Hp & Hp_id).
    destruct (decide (Forall (sweptBy (Command.expiresAt c)) tr)) as [Hswept|Hlate].
    + split; [done|].
      destruct (run_heads (Command.id c) c tr w1 Hw1 Hcomplete Hswept)
        as [[Hw2 Hhead2] _].
      fold w2 in Hw2, Hhead2.
      apply pollCommand_pending in Hp as (c' & Hin' & Hlive' & ->); [|apply Hw2].
      cbn [snapshot polled_id] in Hp_id, Hin'. rewrite Hp_id in Hin'.
      apply head_Some_elem_of in Hhead2.
      assert (c' = c) as ->
        by (eapply omap_wf_functional; [apply Hw2 | done | done]).
      done.
    + exfalso.
      destruct (run_heads_retired (Command.id c) c tr w1 Hw1 Hcomplete Hlate)
        as (Hw2 & Hgone & _).
      fold w2 in Hw2, Hgone.
      apply pollCommand_pending in Hp as (c' & Hin' & _ & ->); [|apply Hw2].
      apply Hgone. rewrite <- Hp_id. by eapply omap_elem_keys.
  - intros [Hswept Hlive']. exists (snapshot c).
    split; [|done]. by apply Hstable.
Qed.
End polling.

Lemma aliceWorld_wf :
  wf_world sampleUUID {| queue := aliceQueue; uuidsDrawn := 1 |}.
Proof.
  apply (run_wf sampleUUID [EvAdd "kick" "Alice" 1000 t0] (initWorld defaultEnv)),
    initWorld_wf.
Qed.

Lemma poll_is_stable_witness :
  ∃ c,
    (pollCommand (t0 + 1) aliceQueue).1 = HasCommand (snapshot c)
    ∧ (pollCommand (t0 + 300000)
         (queue (run sampleUUID
                   [EvPoll (t0 + 5);
                    EvAdd "ban" "Bob" 2000 (t0 + 6);
                    EvStatus (t0 + 7) (t0 + 8);
                    EvTick (t0 + 30000);
                    EvPoll (t0 + 30001)]
                   {| queue := (pollCommand (t0 + 1) aliceQueue).2;
                      uuidsDrawn := 1 |}).2)).1
      = HasCommand (snapshot c).
Proof.
  destruct (poll_is_stable sampleUUID sampleUUID_inj
              {| queue := aliceQueue; uuidsDrawn := 1 |} (t0 + 1)
              "cmd-0" aliceCommand aliceWorld_wf)
    as (c & Hget & _ & _ & Hpoll & _ & Hstable).
  - apply list_elem_of_singleton. reflexivity.
  - vm_compute. discriminate.
  - exists c. split; [exact Hpoll|].
    assert (c = aliceCommand) as ->.
    { apply omap_get_Some_elem in Hget.
      change (commands (queue {| queue := aliceQueue; uuidsDrawn := 1 |}))
        with [("cmd-0", aliceCommand)] in Hget.
      apply list_elem_of_singleton in Hget. by injection Hget. }
    destruct (Hstable [EvPoll (t0 + 5);
                       EvAdd "ban" "Bob" 2000 (t0 + 6);
                       EvStatus (t0 + 7) (t0 + 8);
                       EvTick (t0 + 30000);
                       EvPoll (t0 + 30001)] (t0 + 300000))
      as [_ Hlive].
    + repeat constructor; intros [].
    + destruct Hlive as (_ & _ & Hlast).
      * repeat constructor; vm_compute; discriminate.
      * apply Hlast. vm_compute. discriminate.
Defined.

(** C8, as stated, does not hold. With Alice's and Bob's commands pending
    and no call of complete, a poll at [t0 + 300000] returns Alice's command
    and leaves both in the store; a poll one millisecond later, when Alice's
    command has expired and Bob's has not, returns Bob's. *)
Lemma poll_after_expiry_counterexample :
  OMap.keys (commands (queue aliceBobWorld)) = ["cmd-0"; "cmd-1"]
  ∧ Command.expiresAt <$> OMap.values (commands (queue aliceBobWorld))
    = [t0 + 300000; t0 + 301000]
  ∧ (run sampleUUID [EvPoll (t0 + 300000); EvPoll (t0 + 300001)]
       aliceBobWorld).1
    = [OutPoll (HasCommand {| polled_id := "cmd-0";
                              polled_type := "kick";
                              polled_player := "Alice";
                              polled_timestamp := 1000;
                              polled_attempts := 0 |});
       OutPoll (HasCommand {| polled_id := "cmd-1";
                              polled_type := "ban";
                              polled_player := "Bob";
                              polled_timestamp := 2000;
                              polled_attempts := 0 |})]
  ∧ OMap.keys (commands (queue (run sampleUUID [EvPoll (t0 + 300000)]
                                  aliceBobWorld).2))
    = ["cmd-0"; "cmd-1"].
Proof. vm_compute. split_and!; reflexivity. Qed.

(** ** First in, first out *)

Lemma entries_keys cs : OMap.keys (entries cs) = Command.id <$> cs.
Proof. unfold OMap.keys, entries. by rewrite <- list_fmap_compose. Qed.

Lemma entries_elem k c cs : (k, c) ∈ entries cs → c ∈ cs.
Proof. intros [c' [[= _ ->] Hin]]%list_elem_of_fmap. done. Qed.

(** The consumer's turn on a store whose commands are all unexpired: it
    receives the first command and leaves the others in their order. *)
Lemma pollThenComplete_head cy q c cs :
  commands q = entries (c :: cs) →
  NoDup (Command.id <$> c :: cs) →
  Forall (λ c', cycle_now cy ≤ Command.expiresAt c') (c :: cs) →
  (pollThenComplete cy q).1 = HasCommand (snapshot c)
  ∧ commands (pollThenComplete cy q).2 = entries cs
  ∧ config (pollThenComplete cy q).2 = config q.
Proof.
  intros Hcmds Hnodup Hlive.
  assert (OMap.wf (commands q)) as Hwf
    by (unfold OMap.wf; by rewrite Hcmds, entries_keys).
  assert (commands (cleanupExpiredCommands (cycle_now cy) q) = entries (c :: cs))
    as Hswept.
  { rewrite cleanup_commands_id; [done | done |].
    intros k c' Hin. rewrite Hcmds in Hin. apply entries_elem in Hin.
    by apply (proj1 (Forall_forall _ _) Hlive). }
  unfold pollThenComplete, pollCommand, OMap.first, OMap.values.
  rewrite Hswept. cbn [entries fmap list_fmap head]. cbn [fst snd snapshot polled_id].
  split_and!; [done | | by rewrite completeCommand_config].
  rewrite completeCommand_commands, Hswept.
  apply (omap_delete_head (Command.id c) c (entries cs)).
  unfold OMap.wf.
  change ((Command.id c, c) :: entries cs) with (entries (c :: cs)).
  by rewrite entries_keys.
Qed.

Lemma pollCompleteCycles_cons cy cys q :
  pollCompleteCycles (cy :: cys) q
  = ((pollThenComplete cy q).1 :: (pollCompleteCycles cys (pollThenComplete cy q).2).1,
     (pollCompleteCycles cys (pollThenComplete cy q).2).2).
Proof.
  cbn [pollCompleteCycles]. destruct (pollThenComplete cy q) as [r q'].
  cbn [fst snd]. by destruct (pollCompleteCycles cys q') as [rs q''].
Qed.

(** As many turns as there are commands, or fewer, return the commands in
    the order of the store. *)
Lemma pollCompleteCycles_fifo cys cs q :
  commands q = entries cs →
  NoDup (Command.id <$> cs) →
  (length cys ≤ length cs)%nat →
  Forall (λ cy, Forall (λ c, cycle_now cy ≤ Command.expiresAt c) cs) cys →
  (pollCompleteCycles cys q).1 = (HasCommand ∘ snapshot) <$> take (length cys) cs
  ∧ commands (pollCompleteCycles cys q).2 = entries (drop (length cys) cs).
Proof.
  revert cs q. induction cys as [|cy cys IH]; intros cs q Hcmds Hnodup Hlen Hlive.
  - cbn. by rewrite drop_0.
  - destruct cs as [|c cs]; [cbn in Hlen; lia|].
    apply Forall_cons in Hlive as [Hcy Hlive].
    destruct (pollThenComplete_head cy q c cs Hcmds Hnodup Hcy) as (Hr & Hq' & _).
    rewrite pollCompleteCycles_cons. cbn [fst snd length take drop].
    rewrite fmap_cons, Hr.
    rewrite fmap_cons in Hnodup. apply NoDup_cons in Hnodup as [_ Hnodup].
    destruct (IH cs (pollThenComplete cy q).2 Hq' Hnodup) as [IH1 IH2].
    + cbn in Hlen. lia.
    + eapply Forall_impl; [exact Hlive|]. intros cy' H.
      by apply Forall_cons in H as [_ ?].
    + by rewrite IH1, IH2.
Qed.

Section fifo.
Variable randomUUID : nat → string.
Hypothesis randomUUID_inj : Inj (=) (=) randomUUID.

Lemma submittedCommands_ids cfg n subs :
  Command.id <$> submittedCommands randomUUID cfg n subs
  = randomUUID <$> seq n (length subs).
Proof.
  revert n. induction subs as [|s subs IH]; intros n; [done|].
  cbn [submittedCommands length seq]. by rewrite !fmap_cons, IH.
Qed.

Lemma submittedCommands_NoDup cfg n subs :
  NoDup (Command.id <$> submittedCommands randomUUID cfg n subs).
Proof. rewrite submittedCommands_ids. apply NoDup_fmap_2, NoDup_seq; done. Qed.

Lemma submittedCommands_length cfg n subs :
  length (submittedCommands randomUUID cfg n subs) = length subs.
Proof.
  revert n. induction subs as [|s subs IH]; intros n; [done|].
  cbn [submittedCommands length]. by rewrite IH.
Qed.

Lemma submittedCommands_lookup cfg n subs i :
  submittedCommands randomUUID cfg n subs !! i
  = submittedCommand cfg (randomUUID (n + i)) <$> subs !! i.
Proof.
  revert n i. induction subs as [|s subs IH]; intros n i; [done|].
  destruct i as [|i]; cbn [submittedCommands].
  - cbn. by rewrite Nat.add_0_r.
  - rewrite !lookup_cons, (IH (S n) i). do 3 f_equal. lia.
Qed.

(** A run of accepted submissions appends their commands to the store. *)
Lemma run_submissions subs w :
  wf_world randomUUID w →
  Forall isAddSuccess (run randomUUID (submissions subs) w).1 →
  let cs := submittedCommands randomUUID (config (queue w)) (uuidsDrawn w) subs in
  commands (queue (run randomUUID (submissions subs) w).2)
  = commands (queue w) ++ entries cs
  ∧ config (queue (run randomUUID (submissions subs) w).2) = config (queue w)
  ∧ returnedIds (run randomUUID (submissions subs) w).1 = Command.id <$> cs.
Proof.
  revert w. induction subs as [|s subs IH]; intros w Hw Hacc cs.
  - cbn. by rewrite app_nil_r.
  - unfold submissions in *. rewrite fmap_cons in *. rewrite run_cons in *.
    cbn [fst snd] in *. apply Forall_cons in Hacc as [Hs Hacc].
    destruct (step randomUUID w _) as [o w'] eqn:Hstep. cbn [fst snd] in *.
    destruct o as [[commandId position|]| | | |]; try done.
    destruct (step_add_accepted randomUUID _ _ _ _ _ _ _ _ Hstep)
      as (Hdup & Hsize & ->).
    rewrite step_add_accepts in Hstep by done. injection Hstep as _ <-.
    rewrite omap_set_fresh in * by (by apply next_uuid_fresh).
    set (w' := {| queue := _; uuidsDrawn := _ |}) in *.
    assert (wf_world randomUUID w') as Hw'.
    { pose proof (step_wf randomUUID w
                    (EvAdd (sub_type s) (sub_player s) (sub_timestamp s) (sub_now s))
                    Hw) as H.
      rewrite step_add_accepts in H by done. cbn [snd] in H.
      by rewrite omap_set_fresh in H by (by apply next_uuid_fresh). }
    destruct (IH w' Hw' Hacc) as (IH1 & IH2 & IH3).
    rewrite IH1, IH2. unfold returnedIds in *. cbn [omap list_omap returnedId].
    rewrite IH3. subst cs w'. cbn [queue commands config uuidsDrawn submittedCommands].
    rewrite fmap_cons. unfold entries. rewrite fmap_cons.
    split_and!; [|done|done].
    rewrite <- app_assoc. by destruct s.
Qed.

(** C4. Let submissions be accepted one after the other into an empty
    store, and let as many poll-then-complete turns follow, none of them
    later than the expiry of any of the commands. Then the identifiers come
    back in the order of submission: the store holds the commands in that
    order, the turns return them in that order and empty the store, the
    first [i] turns return the first [i] commands and leave the others as
    they were, and, when the clock did not go back between the submissions,
    the command a turn returns has the least [createdAt] among those then
    pending. *)
Theorem fifo_poll_complete w0 subs cys :
  commands (queue w0) = [] →
  Forall isAddSuccess (run randomUUID (submissions subs) w0).1 →
  length cys = length subs →
  Forall (λ cy, Forall (λ s, cycle_now cy
                             ≤ sub_now s + commandExpirationMs (config (queue w0)))
                       subs) cys →
  let w1 := (run randomUUID (submissions subs) w0).2 in
  let cs := submittedCommands randomUUID (config (queue w0)) (uuidsDrawn w0) subs in
  returnedIds (run randomUUID (submissions subs) w0).1 = Command.id <$> cs
  ∧ commands (queue w1) = entries cs
  ∧ (pollCompleteCycles cys (queue w1)).1 = (HasCommand ∘ snapshot) <$> cs
  ∧ commands (pollCompleteCycles cys (queue w1)).2 = []
  ∧ (∀ i, (pollCompleteCycles (take i cys) (queue w1)).1
          = (HasCommand ∘ snapshot) <$> take i cs
          ∧ commands (pollCompleteCycles (take i cys) (queue w1)).2
            = entries (drop i cs))
  ∧ ((∀ i j s s', (i ≤ j)%nat → subs !! i = Some s → subs !! j = Some s' →
                  sub_now s ≤ sub_now s') →
     ∀ i c c', cs !! i = Some c → c' ∈ drop i cs →
               Command.createdAt c ≤ Command.createdAt c').
Proof.
  intros Hempty Hacc Hlen Hlive w1 cs.
  assert (wf_world randomUUID w0) as Hw0.
  { split; [split|]; rewrite ?Hempty.
    - apply NoDup_nil_2.
    - intros k c Hin. by apply elem_of_nil in Hin.
    - intros k c Hin. by apply elem_of_nil in Hin.
    - intros k c Hin. by apply elem_of_nil in Hin.
    - intros k Hin. by apply elem_of_nil in Hin. }
  destruct (run_submissions subs w0 Hw0 Hacc) as (Hcmds & Hcfg & Hids).
  rewrite Hempty, app_nil_l in Hcmds. fold w1 in Hcmds, Hcfg. fold cs in Hcmds, Hids.
  assert (length cs = length subs) as Hcs by apply submittedCommands_length.
  assert (∀ cys', (length cys' ≤ length cys)%nat →
            Forall (λ cy, cy ∈ cys) cys' →
            (pollCompleteCycles cys' (queue w1)).1
            = (HasCommand ∘ snapshot) <$> take (length cys') cs
            ∧ commands (pollCompleteCycles cys' (queue w1)).2
              = entries (drop (length cys') cs)) as Hfifo.
  { intros cys' Hlen' Hsub.
    apply pollCompleteCycles_fifo; [done | apply submittedCommands_NoDup | lia |].
    eapply Forall_impl; [exact Hsub|]. intros cy Hcy. cbn beta in Hcy.
    apply Forall_forall. intros c Hc.
    apply list_elem_of_lookup in Hc as [i Hi]. unfold cs in Hi.
    rewrite submittedCommands_lookup in Hi.
    destruct (subs !! i) as [s|] eqn:Hs; [|done]. injection Hi as <-.
    cbn [submittedCommand Command.expiresAt].
    apply (proj1 (Forall_forall _ _) Hlive) in Hcy.
    apply (proj1 (Forall_forall _ _) Hcy). by eapply list_elem_of_lookup_2. }
  split_and!; [done | done | | | |].
  - destruct (Hfifo cys) as [-> _]; [done | by apply Forall_forall |].
    by rewrite take_ge by lia.
  - destruct (Hfifo cys) as [_ ->]; [done | by apply Forall_forall |].
    by rewrite drop_ge by lia.
  - intros i. destruct (Hfifo (take i cys)) as [H1 H2].
    + rewrite length_take. lia.
    + apply Forall_forall. intros cy Hcy.
      apply elem_of_take in Hcy as (j & Hj & _). by eapply list_elem_of_lookup_2.
    + rewrite length_take in H1, H2.
      destruct (decide (i ≤ length cys)%nat) as [Hi|Hi].
      * rewrite Nat.min_l in H1, H2 by done. done.
      * rewrite Nat.min_r in H1, H2 by lia. rewrite H1, H2.
        rewrite !take_ge, !drop_ge by lia. done.
  - intros Hmono i c c' Hc Hc'.
    apply list_elem_of_lookup in Hc' as [j Hj]. rewrite lookup_drop in Hj.
    unfold cs in Hc, Hj. rewrite submittedCommands_lookup in Hc, Hj.
    destruct (subs !! i) as [s|] eqn:Hs; [|done].
    destruct (subs !! (i + j)%nat) as [s'|] eqn:Hs'; [|done].
    injection Hc as <-. injection Hj as <-. cbn [submittedCommand Command.createdAt].
    apply (Hmono i (i + j)%nat); [lia | done | done].
Qed.
End fifo.

Lemma fifo_poll_complete_witness :
  polled_id <$>
    omap (λ r, match r with HasCommand pc => Some pc | NoCommand => None end)
      (pollCompleteCycles threeCycles
         (queue (run sampleUUID (submissions threeSubmissions)
                   (initWorld defaultEnv)).2)).1
  = ["cmd-0"; "cmd-1"; "cmd-2"].
Proof.
  destruct (fifo_poll_complete sampleUUID sampleUUID_inj (initWorld defaultEnv)
              threeSubmissions threeCycles)
    as (_ & _ & -> & _).
  - reflexivity.
  - vm_compute. repeat constructor.
  - reflexivity.
  - repeat constructor; vm_compute; discriminate.
  - reflexivity.
Defined.

(** * Further properties of the engine *)

(** ** What the sweep does to the cooldown table *)

Lemma queue_eq (q1 q2 : CommandQueue) :
  commands q1 = commands q2 →
  playerCooldowns q1 = playerCooldowns q2 →
  config q1 = config q2 →
  q1 = q2.
Proof. destruct q1, q2. cbn. by intros -> -> ->. Qed.

Lemma hasActiveCommand_false player (m : OMap.t Command.t) :
  hasActiveCommand player m = false ↔ noCommandOf player m.
Proof.
  unfold hasActiveCommand, noCommandOf, OMap.values.
  induction m as [|[k c] m IH].
  - split; [|done]. intros _ k c Hin. by apply elem_of_nil in Hin.
  - rewrite fmap_cons. cbn [existsb snd]. rewrite orb_false_iff, IH.
    rewrite bool_decide_eq_false. split.
    + intros [Hc Hm] k' c' [[= -> ->]|Hin]%elem_of_cons; [done | eauto].
    + intros Hall. split.
      * apply (Hall k c), elem_of_cons. by left.
      * intros k' c' Hin. apply (Hall k' c'), elem_of_cons. by right.
Qed.

(** The first loop keeps the entry of a player unless it visits an expired
    command of that player. *)
Lemma sweep_fold_cooldowns_lookup now (es : OMap.t Command.t) acc player t :
  (foldl (sweepEntry now) acc es).2 !! player = Some t
  ↔ acc.2 !! player = Some t
    ∧ ∀ k c, (k, c) ∈ es → expired now c → Command.player c ≠ player.
Proof.
  revert acc. induction es as [|[k0 c0] es IH]; intros acc.
  - cbn [foldl]. split; [|by intros [? _]].
    intros H. split; [done|]. intros k c Hin. by apply elem_of_nil in Hin.
  - cbn [foldl]. rewrite IH. unfold sweepEntry. cbn [fst snd].
    destruct (decide (expired now c0)) as [He|He].
    + rewrite bool_decide_eq_true_2 by done. cbn [snd].
      rewrite lookup_delete_Some. split.
      * intros [[Hne Hacc] Hes]. split; [done|].
        intros k c [[= -> ->]|Hin]%elem_of_cons; [done | eauto].
      * intros [Hacc Hall]. split_and!; [|done|].
        -- apply (Hall k0 c0); [apply elem_of_cons; by left | done].
        -- intros k c Hin. apply (Hall k c), elem_of_cons. by right.
    + rewrite bool_decide_eq_false_2 by done. split.
      * intros [Hacc Hes]. split; [done|].
        intros k c [[= -> ->]|Hin]%elem_of_cons; [done | eauto].
      * intros [Hacc Hall]. split; [done|].
        intros k c Hin. apply (Hall k c), elem_of_cons. by right.
Qed.

(** After the sweep at [now] a player has the cooldown entry [t] exactly
    when the player had it before, no command of the player was found
    expired, and the entry is not both older than the cooldown window and
    without a command of the player left in the store. *)
Lemma cleanup_cooldowns_lookup now q player t :
  playerCooldowns (cleanupExpiredCommands now q) !! player = Some t
  ↔ playerCooldowns q !! player = Some t
    ∧ (∀ k c, (k, c) ∈ commands q → expired now c → Command.player c ≠ player)
    ∧ ¬ (duplicateCooldownMs (config q) < now - t
         ∧ noCommandOf player (commands (cleanupExpiredCommands now q))).
Proof.
  unfold cleanupExpiredCommands at 1. cbn [playerCooldowns].
  rewrite map_lookup_filter_Some. cbn [fst snd].
  rewrite sweep_fold_cooldowns_lookup. cbn [snd].
  rewrite hasActiveCommand_false. unfold cleanupExpiredCommands. cbn [commands].
  tauto.
Qed.

Lemma isDuplicateCommand_true player now q :
  isDuplicateCommand player now q = true
  ↔ ∃ t, playerCooldowns q !! player = Some t ∧ t ≠ 0
         ∧ now - t < duplicateCooldownMs (config q).
Proof.
  unfold isDuplicateCommand. destruct (playerCooldowns q !! player) as [t|].
  - case_decide as Ht.
    + split; [done|]. intros (t' & [= <-] & Hnz & _). done.
    + rewrite bool_decide_eq_true. split.
      * intros Hlt. by exists t.
      * by intros (t' & [= <-] & _ & Hlt).
  - split; [done|]. by intros (t & [=] & _).
Qed.

(** X3. For the duplicate check of a submission at [now'], a sweep at an
    earlier time [now] has one effect only: it lifts the cooldown of the
    players of whom it finds a command expired. The removal of stale cooldown
    entries never changes the outcome of the check. *)
Theorem duplicate_check_after_sweep now now' q player :
  now ≤ now' →
  isDuplicateCommand player now' (cleanupExpiredCommands now q) = true
  ↔ isDuplicateCommand player now' q = true
    ∧ ∀ k c, (k, c) ∈ commands q → expired now c → Command.player c ≠ player.
Proof.
  intros Hle. rewrite !isDuplicateCommand_true. rewrite cleanup_config. split.
  - intros (t & Ht & Hnz & Hlt).
    apply cleanup_cooldowns_lookup in Ht as (Ht & Hexp & _).
    split; [by exists t | done].
  - intros [(t & Ht & Hnz & Hlt) Hexp]. exists t. split_and!; [|done|done].
    apply cleanup_cooldowns_lookup. split_and!; [done | done |].
    intros [Hold _]. lia.
Qed.

Lemma duplicate_check_after_sweep_witness :
  isDuplicateCommand "Alice" (t0 + 59999)
    (cleanupExpiredCommands (t0 + 30000) aliceQueue) = true.
Proof.
  apply (duplicate_check_after_sweep (t0 + 30000) (t0 + 59999) aliceQueue "Alice");
    [vm_compute; discriminate|].
  split; [reflexivity|].
  intros k c [= -> ->]%list_elem_of_singleton. vm_compute. discriminate.
Defined.

(** ** Sweeps compose *)

Lemma cleanup_keys_wf now q :
  OMap.wf (commands q) → OMap.wf (commands (cleanupExpiredCommands now q)).
Proof.
  intros Hwf. rewrite cleanup_commands by done. unfold OMap.wf, OMap.keys.
  eapply sublist_NoDup; [exact Hwf|]. apply fmap_sublist, sublist_filter.
Qed.

(** A sweep at [now] is absorbed by a later sweep at [now']. *)
Lemma cleanup_cleanup now now' q :
  OMap.wf (commands q) → now ≤ now' →
  cleanupExpiredCommands now' (cleanupExpiredCommands now q)
  = cleanupExpiredCommands now' q.
Proof.
  intros Hwf Hle. pose proof (cleanup_keys_wf now q Hwf) as Hwf1.
  assert (commands (cleanupExpiredCommands now' (cleanupExpiredCommands now q))
          = commands (cleanupExpiredCommands now' q)) as Hcmds.
  { rewrite (cleanup_commands now' (cleanupExpiredCommands now q)) by done.
    rewrite !cleanup_commands by done. rewrite list_filter_filter.
    apply list_filter_iff. intros [k c]. unfold expired. cbn [snd]. lia. }
  apply queue_eq; [done | | done].
  apply map_eq. intros player. apply option_eq. intros t.
  rewrite (cleanup_cooldowns_lookup now' (cleanupExpiredCommands now q)).
  rewrite (cleanup_cooldowns_lookup now q), (cleanup_cooldowns_lookup now' q).
  rewrite Hcmds, cleanup_config. split.
  - intros ((Ht & Hexp & Hstale) & Hexp1 & Hstale'). split_and!; [done | | done].
    intros k c Hin Hc. destruct (decide (expired now c)) as [Hc0|Hc0].
    + by apply (Hexp k c).
    + apply (Hexp1 k c); [|done]. apply cleanup_elem; [done|].
      split; [done|]. unfold expired in Hc0. lia.
  - intros (Ht & Hexp & Hstale'). split_and!; [done | | | | done].
    + intros k c Hin Hc. apply (Hexp k c); [done|]. unfold expired in *. lia.
    + intros [Hold Hnone]. apply Hstale'. split; [lia|].
      intros k c Hin. apply (Hnone k c).
      apply cleanup_elem in Hin as [Hin Hlive]; [|done].
      apply cleanup_elem; [done|]. split; [done | lia].
    + intros k c Hin Hc. apply (Hexp k c); [|done].
      by apply cleanup_elem in Hin as [? _].
Qed.

(** X2. On a store that holds every key once, a sweep is absorbed by any
    later sweep, and by itself. So what a poll or a status request at [now']
    answers, and the state it leaves, do not depend on the polls, status
    requests and ticks of the timer that ran at earlier times [now]. *)
Theorem earlier_sweeps_are_unobservable now now1 now' now1' q :
  OMap.wf (commands q) → now ≤ now' →
  cleanupExpiredCommands now' (cleanupExpiredCommands now q)
  = cleanupExpiredCommands now' q
  ∧ pollCommand now' (cleanupExpiredCommands now q) = pollCommand now' q
  ∧ pollCommand now' (pollCommand now q).2 = pollCommand now' q
  ∧ pollCommand now' (getStatus now now1 q).2 = pollCommand now' q
  ∧ getStatus now' now1' (cleanupExpiredCommands now q) = getStatus now' now1' q
  ∧ getStatus now' now1' (pollCommand now q).2 = getStatus now' now1' q.
Proof.
  intros Hwf Hle. pose proof (cleanup_cleanup now now' q Hwf Hle) as Habs.
  rewrite pollCommand_state, getStatus_state.
  unfold pollCommand, getStatus. by rewrite Habs.
Qed.

Lemma earlier_sweeps_are_unobservable_witness :
  pollCommand (t0 + 300001) (pollCommand (t0 + 1) aliceQueue).2
  = pollCommand (t0 + 300001) aliceQueue.
Proof.
  refine (proj1 (proj2 (proj2 (earlier_sweeps_are_unobservable
            (t0 + 1) (t0 + 1) (t0 + 300001) (t0 + 300001) aliceQueue _ _)))).
  - apply aliceQueue_wf.
  - vm_compute. discriminate.
Defined.

(** ** When poll has nothing to return *)

(** X5. On a store that holds every key once, poll answers that there is no
    command exactly when every pending command has expired at the time of
    the poll, and then it leaves the store empty. *)
Theorem poll_empty_iff_all_expired now q :
  OMap.wf (commands q) →
  ((pollCommand now q).1 = NoCommand
   ↔ ∀ k c, (k, c) ∈ commands q → expired now c)
  ∧ ((pollCommand now q).1 = NoCommand → commands (pollCommand now q).2 = []).
Proof.
  intros Hwf. rewrite pollCommand_result, pollCommand_state.
  split; [split|].
  - intros Hnone k c Hin. destruct (decide (expired now c)) as [|Hlive]; [done|].
    assert ((k, c) ∈ commands (cleanupExpiredCommands now q)) as Hin'.
    { apply cleanup_elem; [done|]. split; [done|]. unfold expired in Hlive. lia. }
    destruct (commands (cleanupExpiredCommands now q)) as [|e m]; [|done].
    by apply elem_of_nil in Hin'.
  - intros Hall.
    destruct (commands (cleanupExpiredCommands now q)) as [|[k c] m] eqn:Hcmds;
      [done|].
    assert ((k, c) ∈ commands (cleanupExpiredCommands now q)) as Hin
      by (rewrite Hcmds; apply elem_of_cons; by left).
    apply cleanup_elem in Hin as [Hin Hlive]; [|done].
    specialize (Hall k c Hin). unfold expired in Hall. lia.
  - by destruct (commands (cleanupExpiredCommands now q)).
Qed.

Lemma poll_empty_iff_all_expired_witness :
  (pollCommand (t0 + 300001) aliceQueue).1 = NoCommand.
Proof.
  apply (poll_empty_iff_all_expired (t0 + 300001) aliceQueue (wf_keys _ aliceQueue_wf)).
  intros k c [= -> ->]%list_elem_of_singleton. vm_compute. reflexivity.
Defined.

(** ** Capacity *)

Lemma cleanup_length now q :
  (length (commands (cleanupExpiredCommands now q)) ≤ length (commands q))%nat.
Proof.
  unfold cleanupExpiredCommands. cbn [commands].
  rewrite sweep_fold_commands. apply length_filter.
Qed.

Lemma completeCommand_length commandId success error q :
  (length (commands (completeCommand commandId success error q).2)
   ≤ length (commands q))%nat.
Proof. rewrite completeCommand_commands. apply length_filter. Qed.

Lemma addCommand_config type player timestamp now uuid q :
  config (addCommand type player timestamp now uuid q).2 = config q.
Proof.
  unfold addCommand. destruct (isDuplicateCommand player now q); [done|].
  by case_bool_decide.
Qed.

Lemma step_config randomUUID w e :
  config (queue (step randomUUID w e).2) = config (queue w).
Proof.
  destruct e as [type player timestamp now|now|cid success error|now now'|now];
    cbn [step].
  - pose proof (addCommand_config type player timestamp now
                  (randomUUID (uuidsDrawn w)) (queue w)) as H.
    by destruct (addCommand _ _ _ _ _ _).
  - pose proof (pollCommand_state now (queue w)) as H.
    destruct (pollCommand now (queue w)) as [r q']. cbn in *. by subst q'.
  - pose proof (completeCommand_config cid success error (queue w)) as H.
    by destruct (completeCommand _ _ _ _).
  - done.
  - done.
Qed.

Lemma step_withinCapacity randomUUID w e :
  withinCapacity (queue w) → withinCapacity (queue (step randomUUID w e).2).
Proof.
  unfold withinCapacity. rewrite step_config. intros Hcap.
  destruct e as [type player timestamp now|now|cid success error|now now'|now];
    cbn [step].
  - unfold addCommand. destruct (isDuplicateCommand player now (queue w)); [done|].
    case_bool_decide as Hfull; [done|]. cbn [snd queue commands].
    unfold OMap.size in *. rewrite omap_length_set. case_decide; lia.
  - pose proof (pollCommand_state now (queue w)) as H.
    destruct (pollCommand now (queue w)) as [r q']. cbn in H. subst q'.
    cbn [snd queue]. pose proof (cleanup_length now (queue w)).
    unfold OMap.size in *. lia.
  - pose proof (completeCommand_length cid success error (queue w)) as H.
    destruct (completeCommand _ _ _ _) as [r q']. cbn [snd queue] in *.
    unfold OMap.size in *. lia.
  - cbn [getStatus snd queue]. pose proof (cleanup_length now (queue w)).
    unfold OMap.size in *. lia.
  - cbn [snd queue]. pose proof (cleanup_length now (queue w)).
    unfold OMap.size in *. lia.
Qed.

Lemma run_config randomUUID tr w :
  config (queue (run randomUUID tr w).2) = config (queue w).
Proof.
  revert w. induction tr as [|e tr IH]; intros w; [done|].
  rewrite run_cons. cbn [snd]. by rewrite IH, step_config.
Qed.

Lemma run_withinCapacity randomUUID tr w :
  withinCapacity (queue w) → withinCapacity (queue (run randomUUID tr w).2).
Proof.
  revert w. induction tr as [|e tr IH]; intros w Hcap; [done|].
  rewrite run_cons. cbn [snd]. by apply IH, step_withinCapacity.
Qed.

(** X1. Whatever calls the engine receives after its construction, its
    configuration stays the one it was constructed with, and the store never
    holds more than [maxQueueSize] commands (none when [maxQueueSize] is
    negative). *)
Theorem store_never_exceeds_capacity randomUUID env tr :
  let w := (run randomUUID tr (initWorld env)).2 in
  config (queue w) = config (constructor env)
  ∧ OMap.size (commands (queue w)) ≤ Z.max 0 (maxQueueSize (config (constructor env))).
Proof.
  intros w. pose proof (run_config randomUUID tr (initWorld env)) as Hcfg.
  split; [done|]. fold w in Hcfg.
  change (queue (initWorld env)) with (constructor env) in Hcfg.
  rewrite <- Hcfg. apply run_withinCapacity. unfold withinCapacity, OMap.size.
  change (commands (queue (initWorld env))) with (@nil (string * Command.t)).
  cbn [length]. lia.
Qed.

(** X4. In a state within capacity whose store holds every key once, once a
    poll has swept a command that expired, its player is no longer in
    cooldown and the store has room: a submission for that player right
    after the poll is accepted, whenever it comes. *)
Theorem expired_command_frees_its_player now q k c type timestamp now' uuid :
  OMap.wf (commands q) →
  withinCapacity q →
  (k, c) ∈ commands q →
  expired now c →
  isDuplicateCommand (Command.player c) now' (pollCommand now q).2 = false
  ∧ ∃ position,
      (addCommand type (Command.player c) timestamp now' uuid (pollCommand now q).2).1
      = AddSuccess uuid position.
Proof.
  intros Hwf Hcap Hin Hexp. rewrite pollCommand_state.
  assert (playerCooldowns (cleanupExpiredCommands now q) !! Command.player c = None)
    as Hnone.
  { apply eq_None_not_Some. intros [t Ht].
    apply cleanup_cooldowns_lookup in Ht as (_ & Hfree & _).
    by apply (Hfree k c). }
  assert (isDuplicateCommand (Command.player c) now'
            (cleanupExpiredCommands now q) = false) as Hdup
    by (unfold isDuplicateCommand; by rewrite Hnone).
  split; [done|]. eexists. rewrite addCommand_accepts; [done | done |].
  rewrite cleanup_config. unfold withinCapacity, OMap.size in *.
  assert (length (commands (cleanupExpiredCommands now q)) < length (commands q))%nat.
  { rewrite cleanup_commands by done.
    apply (length_filter_lt _ _ (k, c)); [done|]. cbn [snd]. tauto. }
  lia.
Qed.

Lemma expired_command_frees_its_player_witness :
  ∃ position,
    (addCommand "ban" "Alice" 2000 (t0 + 300002) (sampleUUID 1)
       (pollCommand (t0 + 300001) fullQueue).2).1
    = AddSuccess (sampleUUID 1) position.
Proof.
  refine (proj2 (expired_command_frees_its_player (t0 + 300001) fullQueue
                   "cmd-0" aliceCommand "ban" 2000 (t0 + 300002) (sampleUUID 1)
                   _ _ _ _)).
  - apply NoDup_singleton.
  - vm_compute. discriminate.
  - apply list_elem_of_singleton. reflexivity.
  - vm_compute. reflexivity.
Defined.

(** X8. In a state within capacity, also when the store is full, the
    completion of a pending command makes room: the next submission of a
    player who is not in cooldown is accepted. *)
Theorem completion_frees_a_slot commandId command success error q
    type player timestamp now uuid :
  withinCapacity q →
  OMap.get commandId (commands q) = Some command →
  isDuplicateCommand player now (completeCommand commandId success error q).2
  = false →
  ∃ position,
    (addCommand type player timestamp now uuid
       (completeCommand commandId success error q).2).1
    = AddSuccess uuid position.
Proof.
  intros Hcap Hget Hdup. eexists. rewrite addCommand_accepts; [done | done |].
  rewrite completeCommand_config, completeCommand_commands.
  unfold withinCapacity, OMap.size in *.
  assert (length (OMap.delete commandId (commands q)) < length (commands q))%nat.
  { apply (length_filter_lt _ _ (commandId, command)); [|cbn; tauto].
    by apply omap_get_Some_elem. }
  lia.
Qed.

Lemma completion_frees_a_slot_witness :
  (addCommand "kick" "Bob" 1001 (t0 + 1000) (sampleUUID 1) fullQueue).1
  = AddFailure QUEUE_FULL "Queue is full (max 1 commands)"
  ∧ ∃ position,
      (addCommand "kick" "Bob" 1001 (t0 + 1000) (sampleUUID 1)
         (completeCommand "cmd-0" false None fullQueue).2).1
      = AddSuccess (sampleUUID 1) position.
Proof.
  split; [reflexivity|].
  apply (completion_frees_a_slot "cmd-0" aliceCommand false None fullQueue
           "kick" "Bob" 1001 (t0 + 1000) (sampleUUID 1)).
  - vm_compute. discriminate.
  - reflexivity.
  - reflexivity.
Defined.

(** ** Resubmission *)

Lemma omap_delete_set {V} k (v : V) (m : OMap.t V) :
  OMap.delete k (OMap.set k v m) = OMap.delete k m.
Proof.
  unfold OMap.delete. induction m as [|[k' v'] m IH]; cbn [OMap.set].
  - by rewrite filter_cons_False by (cbn; tauto).
  - destruct (decide (k = k')) as [->|Hne].
    + by rewrite !filter_cons_False by (cbn; tauto).
    + rewrite !(filter_cons_True _ (k', v')) by (cbn; congruence). by rewrite IH.
Qed.

(** X6. After an accepted submission for a player at a clock reading [now]
    other than 0, a second submission for that player less than the cooldown
    window later is refused with [DUPLICATE_COMMAND], whatever its type and
    timestamp, and changes nothing. *)
Theorem resubmission_within_cooldown_is_refused
    type player timestamp now uuid q commandId position
    type' timestamp' now' uuid' :
  (addCommand type player timestamp now uuid q).1 = AddSuccess commandId position →
  now ≠ 0 →
  now' - now < duplicateCooldownMs (config q) →
  addCommand type' player timestamp' now' uuid'
    (addCommand type player timestamp now uuid q).2
  = (AddFailure DUPLICATE_COMMAND
       ("Command for player " +:+ player
          +:+ " already exists within cooldown period"),
     (addCommand type player timestamp now uuid q).2).
Proof.
  intros Hacc Hnz Hlt.
  destruct (addCommand_accepted _ _ _ _ _ _ _ _ Hacc) as (Hdup & Hsize & _).
  rewrite (addCommand_accepts type) by done.
  cbn [snd]. unfold addCommand, isDuplicateCommand. cbn [playerCooldowns config].
  rewrite lookup_insert_eq, decide_False by done.
  by rewrite bool_decide_eq_true_2.
Qed.

Lemma resubmission_within_cooldown_is_refused_witness :
  (addCommand "ban" "Alice" 1001 (t0 + 59999) (sampleUUID 1) aliceQueue).1
  = AddFailure DUPLICATE_COMMAND
      "Command for player Alice already exists within cooldown period".
Proof.
  change aliceQueue
    with (addCommand "kick" "Alice" 1000 t0 (sampleUUID 0) (constructor defaultEnv)).2.
  rewrite (resubmission_within_cooldown_is_refused "kick" "Alice" 1000 t0
             (sampleUUID 0) (constructor defaultEnv) "cmd-0" 1
             "ban" 1001 (t0 + 59999) (sampleUUID 1));
    [reflexivity | reflexivity | vm_compute; discriminate | vm_compute; reflexivity].
Defined.

(** X7. The outcome reported with a completion decides whether the player
    may submit again at once. After an accepted submission at a clock reading
    other than 0 and the completion of its command, a submission for the same
    player within the cooldown window is refused with [DUPLICATE_COMMAND] if
    the completion reported [success = false], although the store no longer
    holds the command, and is accepted if it reported [success = true]. *)
Theorem resubmission_after_completion
    type player timestamp now uuid q commandId position error
    type' timestamp' now' uuid' :
  (addCommand type player timestamp now uuid q).1 = AddSuccess commandId position →
  now ≠ 0 →
  now' - now < duplicateCooldownMs (config q) →
  let q1 := (addCommand type player timestamp now uuid q).2 in
  OMap.get commandId (commands (completeCommand commandId false error q1).2) = None
  ∧ (addCommand type' player timestamp' now' uuid'
       (completeCommand commandId false error q1).2).1
    = AddFailure DUPLICATE_COMMAND
        ("Command for player " +:+ player
           +:+ " already exists within cooldown period")
  ∧ ∃ position',
      (addCommand type' player timestamp' now' uuid'
         (completeCommand commandId true error q1).2).1
      = AddSuccess uuid' position'.
Proof.
  intros Hacc Hnz Hlt q1.
  destruct (addCommand_accepted _ _ _ _ _ _ _ _ Hacc) as (Hdup & Hsize & ->).
  unfold q1. rewrite (addCommand_accepts type) by done. cbn [snd].
  unfold completeCommand. cbn [commands playerCooldowns config].
  rewrite omap_get_set_eq. cbn [snd commands].
  split_and!.
  - apply omap_get_delete_eq.
  - unfold addCommand, isDuplicateCommand. cbn [playerCooldowns config].
    rewrite lookup_insert_eq, decide_False by done.
    by rewrite bool_decide_eq_true_2.
  - eexists. rewrite addCommand_accepts; [done | |].
    + unfold isDuplicateCommand. cbn [playerCooldowns submittedCommand Command.player sub_player].
      by rewrite lookup_delete_eq.
    + cbn [commands config]. rewrite omap_delete_set.
      pose proof (length_filter (λ e : string * Command.t, e.1 ≠ uuid) (commands q)).
      unfold OMap.size, OMap.delete in *. lia.
Qed.

Lemma resubmission_after_completion_witness :
  (addCommand "ban" "Alice" 1001 (t0 + 5) (sampleUUID 1)
     (completeCommand "cmd-0" false (Some "offline") aliceQueue).2).1
  = AddFailure DUPLICATE_COMMAND
      "Command for player Alice already exists within cooldown period"
  ∧ ∃ position',
      (addCommand "ban" "Alice" 1001 (t0 + 5) (sampleUUID 1)
         (completeCommand "cmd-0" true (Some "offline") aliceQueue).2).1
      = AddSuccess (sampleUUID 1) position'.
Proof.
  refine (proj2 (resubmission_after_completion "kick" "Alice" 1000 t0
                   (sampleUUID 0) (constructor defaultEnv) "cmd-0" 1
                   (Some "offline") "ban" 1001 (t0 + 5) (sampleUUID 1) _ _ _)).
  - reflexivity.
  - vm_compute. discriminate.
  - vm_compute. reflexivity.
Defined.

(** ** After [clear()] *)

(** X10. After [clear()] no state of before is left to refuse a submission:
    whoever the player and whatever the time, a submission is accepted at
    position 1 if [maxQueueSize] is positive, and is refused with
    [QUEUE_FULL] otherwise; a poll before it finds no command. *)
Theorem clear_resets q type player timestamp now uuid :
  (pollCommand now (clear q)).1 = NoCommand
  ∧ (0 < maxQueueSize (config q) →
     addCommand type player timestamp now uuid (clear q)
     = (AddSuccess uuid 1,
        {| commands :=
             [(uuid, submittedCommand (config q) uuid
                       {| sub_type := type; sub_player := player;
                          sub_timestamp := timestamp; sub_now := now |})];
           playerCooldowns := {[player := now]};
           config := config q |}))
  ∧ (maxQueueSize (config q) ≤ 0 →
     (addCommand type player timestamp now uuid (clear q)).1
     = AddFailure QUEUE_FULL
         ("Queue is full (max " +:+ pretty (maxQueueSize (config q))
            +:+ " commands)")).
Proof.
  split_and!.
  - done.
  - intros Hmax. rewrite addCommand_accepts; [done | done |].
    unfold OMap.size. cbn [clear commands config OMap.empty length]. lia.
  - intros Hmax. unfold addCommand, isDuplicateCommand. cbn [clear playerCooldowns].
    rewrite lookup_empty. cbn [commands config].
    rewrite bool_decide_eq_true_2; [done|].
    unfold OMap.size, OMap.empty. simpl length.
    change (config (clear q)) with (config q). lia.
Qed.

Lemma clear_resets_witness :
  addCommand "kick" "Alice" 1000 t0 (sampleUUID 0) (clear fullQueue)
  = (AddSuccess "cmd-0" 1, fullQueue).
Proof.
  rewrite (proj1 (proj2 (clear_resets fullQueue "kick" "Alice" 1000 t0 (sampleUUID 0))));
    [reflexivity | vm_compute; reflexivity].
Defined.

(** ** Identifiers *)

Section identifiers.
Variable randomUUID : nat → string.
Hypothesis randomUUID_inj : Inj (=) (=) randomUUID.

Lemma run_keys tr w k :
  k ∈ OMap.keys (commands (queue (run randomUUID tr w).2)) →
  k ∈ OMap.keys (commands (queue w)) ∨ k ∈ returnedIds (run randomUUID tr w).1.
Proof.
  revert w. induction tr as [|e tr IH]; intros w; [by left|].
  rewrite run_cons. cbn [fst snd]. intros [Hk|Hk]%IH.
  - apply step_keys in Hk as [Hk|Hk]; [by left|]. right.
    unfold returnedIds. cbn [omap list_omap]. rewrite Hk.
    apply elem_of_cons. by left.
  - right. unfold returnedIds in *. cbn [omap list_omap].
    destruct (returnedId _); [apply elem_of_cons; by right | done].
Qed.

Lemma run_returnedIds_NoDup tr w : NoDup (returnedIds (run randomUUID tr w).1).
Proof.
  revert w. induction tr as [|e tr IH]; intros w; [apply NoDup_nil_2|].
  rewrite run_cons. cbn [fst snd]. unfold returnedIds. cbn [omap list_omap].
  destruct (returnedId (step randomUUID w e).1) as [x|] eqn:Hret; [|apply IH].
  apply step_returnedId in Hret as [-> Hdrawn]. apply NoDup_cons. split; [|apply IH].
  intros Hin. apply (run_returnedIds randomUUID) in Hin as (n & Hn & Heq).
  apply randomUUID_inj in Heq. lia.
Qed.

(** X9. With a generator of pairwise distinct identifiers, the identifiers
    that the successful submissions of a run return are pairwise distinct,
    and every command pending at the end is stored under one of them. *)
Theorem returned_ids_are_distinct env tr :
  NoDup (returnedIds (run randomUUID tr (initWorld env)).1)
  ∧ ∀ k, k ∈ OMap.keys (commands (queue (run randomUUID tr (initWorld env)).2)) →
         k ∈ returnedIds (run randomUUID tr (initWorld env)).1.
Proof.
  split; [apply run_returnedIds_NoDup|].
  intros k [Hk|Hk]%run_keys; [|done]. by apply elem_of_nil in Hk.
Qed.
End identifiers.

Lemma returned_ids_are_distinct_witness :
  NoDup (returnedIds
           (run sampleUUID
              [EvAdd "kick" "Alice" 1000 t0;
               EvAdd "kick" "Alice" 1001 (t0 + 1);
               EvAdd "ban" "Bob" 1002 (t0 + 2)]
              (initWorld defaultEnv)).1).
Proof.
  apply (returned_ids_are_distinct sampleUUID sampleUUID_inj defaultEnv).
Defined.

(** ** The age that status reports *)

(** X11. In a well-formed state, the age of the oldest command that status
    reports is 0 when no unexpired command is left, and otherwise the second
    clock reading minus the [createdAt] of the command a poll would return;
    it exceeds the expiration window by no more than the time between the
    two clock readings of the call. *)
Theorem status_age_is_bounded now now' q :
  wf_queue q →
  let s := (getStatus now now' q).1 in
  (queueSize s = 0 → oldestCommandAge s = 0)
  ∧ (0 < queueSize s →
     oldestCommandAge s ≤ commandExpirationMs (config q) + (now' - now)
     ∧ ∃ c, (pollCommand now q).1 = HasCommand (snapshot c)
            ∧ oldestCommandAge s = now' - Command.createdAt c).
Proof.
  intros Hwf s. unfold s, getStatus, getOldestCommandAge, OMap.first, OMap.values.
  cbn [fst queueSize oldestCommandAge]. rewrite pollCommand_result.
  unfold OMap.size.
  destruct (commands (cleanupExpiredCommands now q)) as [|[k c] m] eqn:Hcmds.
  - cbn. split; [done | lia].
  - cbn [fmap list_fmap head snd length]. split; [lia|]. intros _.
    assert ((k, c) ∈ commands (cleanupExpiredCommands now q)) as Hin
      by (rewrite Hcmds; apply elem_of_cons; by left).
    apply cleanup_elem in Hin as [Hin Hlive]; [|apply Hwf].
    rewrite (wf_expiresAt _ Hwf k c Hin) in Hlive.
    split; [lia|]. by exists c.
Qed.

Lemma status_age_is_bounded_witness :
  oldestCommandAge (getStatus (t0 + 300000) (t0 + 300000) aliceQueue).1 ≤ 300000.
Proof.
  pose proof (status_age_is_bounded (t0 + 300000) (t0 + 300000) aliceQueue
                aliceQueue_wf) as [_ H].
  destruct H as [H _]; [vm_compute; reflexivity|].
  etrans; [exact H|]. vm_compute. discriminate.
Defined.

(** ** The position a submission returns *)

Lemma ids_entries (m : OMap.t Command.t) :
  (∀ k c, (k, c) ∈ m → Command.id c = k) → m = entries (OMap.values m).
Proof.
  unfold entries, OMap.values. induction m as [|[k c] m IH]; intros Hids; [done|].
  rewrite !fmap_cons. cbn [snd].
  rewrite (Hids k c) by (apply elem_of_cons; by left).
  rewrite <- IH; [done|]. intros k' c' Hin. apply Hids, elem_of_cons. by right.
Qed.

(** X12. The position a submission returns counts the turns of the consumer
    until the command is delivered. Let a submission be accepted into a
    well-formed state under an identifier new to the store and return
    [position]; let [position] poll-then-complete turns follow, all of them
    before any pending command expires. Then the last of these turns, and
    none before it, returns the command just submitted, and the store is
    empty after it. *)
Theorem position_counts_turns_until_delivery
    type player timestamp now uuid q position q' cys :
  wf_queue q →
  uuid ∉ OMap.keys (commands q) →
  addCommand type player timestamp now uuid q = (AddSuccess uuid position, q') →
  Z.of_nat (length cys) = position →
  Forall (λ cy, ∀ k c, (k, c) ∈ commands q' → cycle_now cy ≤ Command.expiresAt c)
         cys →
  let command :=
    submittedCommand (config q) uuid
      {| sub_type := type; sub_player := player;
         sub_timestamp := timestamp; sub_now := now |} in
  (pollCompleteCycles cys q').1
  = ((HasCommand ∘ snapshot) <$> OMap.values (commands q))
      ++ [HasCommand (snapshot command)]
  ∧ (∀ c, c ∈ OMap.values (commands q) → polled_id (snapshot c) ≠ uuid)
  ∧ commands (pollCompleteCycles cys q').2 = [].
Proof.
  intros Hwf Hfresh Hadd Hlen Hlive command.
  assert ((addCommand type player timestamp now uuid q).1 = AddSuccess uuid position)
    as Hacc by (by rewrite Hadd).
  destruct (addCommand_accepted _ _ _ _ _ _ _ _ Hacc) as (Hdup & Hsize & _).
  rewrite addCommand_accepts in Hadd by done. injection Hadd as Hpos Hq'.
  fold command in Hpos, Hq'. rewrite omap_set_fresh in Hpos, Hq' by done.
  assert (commands q' = entries (OMap.values (commands q) ++ [command])) as Hcmds.
  { rewrite <- Hq'. cbn [commands]. unfold entries. rewrite fmap_app.
    fold (entries (OMap.values (commands q))).
    by rewrite <- (ids_entries (commands q)) by apply Hwf. }
  assert (NoDup (Command.id <$> OMap.values (commands q) ++ [command])) as Hnodup.
  { rewrite <- entries_keys, <- Hcmds, <- Hq'. cbn [commands].
    rewrite <- (omap_set_fresh uuid command) by done.
    apply omap_set_wf, Hwf. }
  assert (length cys = length (OMap.values (commands q) ++ [command])) as Hlen'.
  { unfold OMap.size in Hpos. rewrite length_app in *. cbn [length] in *.
    unfold OMap.values. rewrite length_fmap. lia. }
  destruct (pollCompleteCycles_fifo cys (OMap.values (commands q) ++ [command]) q')
    as [Hres Hrest]; [done | done | lia | |].
  { eapply Forall_impl; [exact Hlive|]. intros cy Hcy. cbn beta in Hcy.
    apply Forall_forall. intros c Hc. apply (Hcy (Command.id c) c).
    rewrite Hcmds. apply list_elem_of_fmap. by exists c. }
  rewrite Hlen' in Hres, Hrest. rewrite take_ge in Hres by lia.
  rewrite drop_ge in Hrest by lia.
  split_and!; [by rewrite Hres, fmap_app | | done].
  intros c [[k c'] [-> Hin]]%list_elem_of_fmap. cbn [snd snapshot polled_id].
  rewrite (wf_ids _ Hwf k c' Hin). intros ->. apply Hfresh.
  by eapply omap_elem_keys.
Qed.

Lemma position_counts_turns_until_delivery_witness :
  (pollCompleteCycles
     [ {| cycle_now := t0 + 10; cycle_success := true; cycle_error := None |};
       {| cycle_now := t0 + 20; cycle_success := true; cycle_error := None |} ]
     (addCommand "ban" "Bob" 2000 (t0 + 5) (sampleUUID 1) aliceQueue).2).1
  = [HasCommand (snapshot aliceCommand);
     HasCommand
       (snapshot
          (submittedCommand (config aliceQueue) (sampleUUID 1)
             {| sub_type := "ban"; sub_player := "Bob";
                sub_timestamp := 2000; sub_now := t0 + 5 |}))].
Proof.
  refine (proj1 (position_counts_turns_until_delivery "ban" "Bob" 2000 (t0 + 5)
                   (sampleUUID 1) aliceQueue 2
                   (addCommand "ban" "Bob" 2000 (t0 + 5) (sampleUUID 1) aliceQueue).2
                   _ aliceQueue_wf _ _ _ _)).
  - vm_compute. intros [[=]|H]%elem_of_cons. by apply elem_of_nil in H.
  - reflexivity.
  - reflexivity.
  - repeat constructor;
      intros k c
        [[= -> ->]|[[= -> ->]|H]%elem_of_cons]%elem_of_cons;
      try (by apply elem_of_nil in H); vm_compute; discriminate.
Defined.

(** * Properties of the authentication gate and of the endpoints *)

(** ** The gate *)

Lemma checkApiKey_default apiKey providedKey e :
  checkApiKey apiKey (nonEmpty apiKey) providedKey = Some e →
  e.1.1 = 401 ∧ nonEmpty apiKey = true.
Proof.
  unfold checkApiKey. destruct (nonEmpty apiKey); cbn [negb andb]; [|done].
  destruct (nonEmpty providedKey); cbn [negb andb].
  - case_bool_decide; [|done]. by intros [= <-].
  - by intros [= <-].
Qed.


(** X13. The gate every endpoint is built with ([required] set exactly when
    a key is configured) lets a request pass exactly when [validateApiKey]
    accepts the key of the request against the configured one; when it
    refuses, the status is 401, never the 500 of a misconfigured server. *)
Theorem gate_agrees_with_validateApiKey apiKey req :
  (apiKeyMiddleware apiKey req = None
   ↔ validateApiKey (x_api_key req) apiKey = true)
  ∧ (∀ r, apiKeyMiddleware apiKey req = Some r → status r = 401)
  ∧ apiKeyMiddleware apiKey req
    = (λ e : Z * string * string, {| status := e.1.1; json := ErrorBody e.1.2 e.2 |})
        <$> checkApiKey apiKey (nonEmpty apiKey) (x_api_key req).
Proof.
  unfold apiKeyMiddleware, validateApiKey, checkApiKey.
  destruct (nonEmpty apiKey); cbn [negb andb].
  - destruct (nonEmpty (x_api_key req)); cbn [negb andb].
    + rewrite bool_decide_eq_true.
      destruct (decide (x_api_key req = apiKey)) as [Heq|Hne].
      * rewrite bool_decide_eq_false_2 by tauto. split_and!; done.
      * rewrite bool_decide_eq_true_2 by done. split_and!; [done | | done].
        by intros r [= <-].
    + split_and!; [done | | done]. by intros r [= <-].
  - split_and!; done.
Qed.

(** X14. A gate built with [required: true] lets a request pass exactly
    when a key is configured and the request carries that key; it answers
    500 exactly when no key is configured, and 401 in every other case. *)
Theorem required_gate apiKey providedKey :
  (checkApiKey apiKey true providedKey = None
   ↔ nonEmpty apiKey = true ∧ providedKey = apiKey)
  ∧ (∀ e, checkApiKey apiKey true providedKey = Some e →
          (e.1.1 = 500 ∧ nonEmpty apiKey = false)
          ∨ (e.1.1 = 401 ∧ nonEmpty apiKey = true ∧ providedKey ≠ apiKey)).
Proof.
  unfold checkApiKey. cbn [negb andb].
  destruct (nonEmpty apiKey) eqn:Hkey; cbn [negb andb].
  - destruct (nonEmpty providedKey) eqn:Hprov; cbn [negb andb].
    + destruct (decide (providedKey = apiKey)) as [Heq|Hne].
      * rewrite bool_decide_eq_false_2 by tauto. split; [done|]. done.
      * rewrite bool_decide_eq_true_2 by done. split.
        -- split; [done | tauto].
        -- intros e [= <-]. right. done.
    + split.
      * split; [done|]. intros [_ ->]. congruence.
      * intros e [= <-]. right. split_and!; [done | done |].
        intros ->. congruence.
  - split.
    + split; [done | by intros [? _]].
    + intros e [= <-]. by left.
Qed.

(** X15. A gate built with [required: false] lets a request pass exactly
    when no key is configured, or the request carries no key, or it carries
    the configured key. A request that carries another key is refused with
    401 also in this mode. *)
Theorem dev_gate apiKey providedKey :
  (devApiKeyMiddleware apiKey providedKey = None
   ↔ nonEmpty apiKey = false ∨ nonEmpty providedKey = false
     ∨ providedKey = apiKey)
  ∧ (∀ e, devApiKeyMiddleware apiKey providedKey = Some e →
          e = (401, "INVALID_API_KEY", "Invalid API key provided")).
Proof.
  unfold devApiKeyMiddleware, checkApiKey. cbn [negb andb].
  destruct (nonEmpty apiKey) eqn:Hkey; cbn [negb andb].
  - destruct (nonEmpty providedKey) eqn:Hprov; cbn [negb andb].
    + destruct (decide (providedKey = apiKey)) as [Heq|Hne].
      * rewrite bool_decide_eq_false_2 by tauto. split; [|done].
        split; [auto | done].
      * rewrite bool_decide_eq_true_2 by done. split; [|by intros e [= <-]].
        split; [done|]. intros [?|[?|?]]; done.
    + split; [|done]. split; [auto | done].
  - split; [|done]. split; [auto | done].
Qed.

(** ** The sanitizer of player names *)

Lemma stringFilter_chars keep s :
  chars (stringFilter keep s) = filter (λ a, keep a = true) (chars s).
Proof.
  induction s as [|a s IH]; [done|]. cbn [stringFilter chars].
  destruct (keep a) eqn:Ha.
  - rewrite filter_cons_True by done. cbn [chars]. by rewrite IH.
  - rewrite filter_cons_False by congruence. done.
Qed.

Lemma chars_inj s1 s2 : chars s1 = chars s2 → s1 = s2.
Proof.
  revert s2. induction s1 as [|a s1 IH]; intros [|b s2]; cbn; try done.
  intros [= -> H]. by rewrite (IH _ H).
Qed.

Lemma sanitizePlayer_chars player :
  Forall (λ a, isAlphaNum a || isWhiteSpace a = true) (chars (sanitizePlayer player)).
Proof.
  unfold sanitizePlayer. rewrite stringFilter_chars.
  apply Forall_forall. intros a Ha. by apply list_elem_of_filter in Ha as [? _].
Qed.

(** X16. Every character of a sanitized player name is a letter, a digit or
    white space; the sanitizer is the trimming alone on a name that, once
    trimmed, has no other character; and it never lengthens a name. *)
Theorem sanitizePlayer_allowed player :
  Forall (λ a, isAlphaNum a || isWhiteSpace a = true) (chars (sanitizePlayer player))
  ∧ (Forall (λ a, isAlphaNum a || isWhiteSpace a = true) (chars (trim player)) →
     sanitizePlayer player = trim player)
  ∧ (length (chars (sanitizePlayer player)) ≤ length (chars (trim player)))%nat.
Proof.
  unfold sanitizePlayer. rewrite stringFilter_chars. split_and!.
  - apply Forall_forall. intros a Ha. by apply list_elem_of_filter in Ha as [? _].
  - intros Hall. apply chars_inj. rewrite stringFilter_chars.
    apply filter_all. intros a Ha. by apply (proj1 (Forall_forall _ _) Hall).
  - apply length_filter.
Qed.

Lemma sanitizePlayer_allowed_witness :
  sanitizePlayer "  Alice 01 " = "Alice 01".
Proof.
  rewrite (proj1 (proj2 (sanitizePlayer_allowed "  Alice 01 "))); [reflexivity|].
  apply Forall_forall. intros a Ha.
  change (chars (trim "  Alice 01 ")) with (chars "Alice 01") in Ha.
  cbn [chars] in Ha. set_unfold in Ha.
  destruct Ha as [->|[->|[->|[->|[->|[->|[->|[->|[]]]]]]]]]; reflexivity.
Defined.

(** ** [POST /api/command] *)



(** X18. When the command endpoint answers 200, the engine has accepted a
    command whose type is ["kick"] or ["ban"], whose timestamp is positive,
    and whose player is the sanitized, non-empty name of the request, made of
    letters, digits and white space only; the answer carries the identifier
    and the position the engine returned, and the state is the one the
    engine left. *)
Theorem commandHandler_accepts_validated apiKey req now uuid q accepted q' :
  commandHandler apiKey req now uuid q = (Answered 200 accepted, q') →
  ∃ type player timestamp,
    command_body req
    = Some {| body_type := JsString type;
              body_player := JsString player;
              body_timestamp := JsNumber timestamp |}
    ∧ command_method req = "POST"
    ∧ (type = "kick" ∨ type = "ban")
    ∧ 0 < timestamp
    ∧ sanitizePlayer player ≠ ""
    ∧ Forall (λ a, isAlphaNum a || isWhiteSpace a = true)
             (chars (sanitizePlayer player))
    ∧ addCommand type (sanitizePlayer player) timestamp now uuid q
      = (AddSuccess (accepted_commandId accepted)
           (accepted_queuePosition accepted), q')
    ∧ accepted_commandId accepted = uuid.
Proof.
  unfold commandHandler, commandFields.
  destruct (checkApiKey apiKey (nonEmpty apiKey) (command_x_api_key req))
    as [e|]; [done|].
  destruct (command_body req) as [[type player timestamp]|]; [|by case_bool_decide].
  cbn [body_type body_player body_timestamp].
  case_bool_decide as Hmethod; [done|].
  destruct (negb (truthy type) || negb (truthy player) || negb (truthy timestamp));
    [done|].
  destruct type as [| | | |type|]; try done.
  destruct (bool_decide (type ≠ "kick") && bool_decide (type ≠ "ban")) eqn:Htype;
    [done|].
  destruct player as [| | | |player|]; try done.
  destruct (bool_decide (trim player = "")); [done|].
  destruct timestamp as [| | |timestamp| |]; try done.
  destruct (bool_decide (timestamp ≤ 0)) eqn:Hts; [done|].
  apply bool_decide_eq_false in Hts.
  destruct (bool_decide (sanitizePlayer player = "")) eqn:Hsan; [done|].
  apply bool_decide_eq_false in Hsan.
  destruct (addCommand type (sanitizePlayer player) timestamp now uuid q)
    as [[commandId position|error message] q''] eqn:Hadd.
  - intros [= <- <-]. exists type, player, timestamp.
    cbn [accepted_commandId accepted_queuePosition].
    split_and!; [done | | | lia | done | apply sanitizePlayer_chars | done |].
    + done.
    + apply andb_false_iff in Htype as [H|H]; apply bool_decide_eq_false in H;
        apply dec_stable in H; auto.
    + pose proof (addCommand_accepted type (sanitizePlayer player) timestamp now
                    uuid q commandId position) as H.
      rewrite Hadd in H. by destruct (H eq_refl) as (_ & _ & ->).
  - by destruct error.
Qed.

Lemma commandHandler_accepts_validated_witness :
  ∃ type player timestamp,
    (type = "kick" ∨ type = "ban")
    ∧ addCommand type (sanitizePlayer player) timestamp t0 (sampleUUID 0)
        (constructor defaultEnv)
      = (AddSuccess "cmd-0" 1, aliceQueue).
Proof.
  destruct (commandHandler_accepts_validated (Some "secret")
              {| command_method := "POST"; command_x_api_key := Some "secret";
                 command_body :=
                   Some {| body_type := JsString "kick";
                           body_player := JsString " Al!ice ";
                           body_timestamp := JsNumber 1000 |} |}
              t0 (sampleUUID 0) (constructor defaultEnv)
              {| accepted_commandId := "cmd-0"; accepted_queuePosition := 1 |}
              aliceQueue)
    as (type & player & timestamp & _ & _ & Htype & _ & _ & _ & Hadd & _);
    [vm_compute; reflexivity|].
  by exists type, player, timestamp.
Defined.

(** ** [POST /api/complete] *)


(** ** [GET /api/poll] *)

(** X20. The poll endpoint either answers 200 with the result of the
    engine's poll and leaves the state the poll leaves, or refuses the
    request with 400, 401 or 405 and leaves the state as it was, without a
    sweep. An accepted request gets the same answer whatever device
    identifier it carries. *)
Theorem pollHandler_effects apiKey req now q :
  ((pollHandler apiKey req now q).1 = Answered 200 (pollCommand now q).1
   ∧ (pollHandler apiKey req now q).2 = cleanupExpiredCommands now q
   ∧ ∀ deviceId,
       truthy deviceId && negb (isString deviceId) = false →
       pollHandler apiKey
         {| poll_method := poll_method req;
            poll_x_api_key := poll_x_api_key req;
            poll_deviceId := deviceId |} now q
       = pollHandler apiKey req now q)
  ∨ (replyStatus (pollHandler apiKey req now q).1 ∈ [400; 401; 405]
     ∧ (pollHandler apiKey req now q).2 = q).
Proof.
  unfold pollHandler. cbn [poll_method poll_x_api_key poll_deviceId].
  destruct (checkApiKey apiKey (nonEmpty apiKey) (poll_x_api_key req))
    as [e|] eqn:Hauth.
  { right. apply checkApiKey_default in Hauth as [He _]. unfold rejection.
    cbn [fst snd replyStatus]. rewrite He. split; [set_solver | done]. }
  case_bool_decide; [right; cbn; split; [set_solver | done]|].
  destruct (truthy (poll_deviceId req) && negb (isString (poll_deviceId req)));
    [right; cbn; split; [set_solver | done]|].
  left. pose proof (pollCommand_state now q) as Hstate.
  destruct (pollCommand now q) as [r q']. cbn [fst snd] in *.
  split_and!; [done | done |]. by intros deviceId ->.
Qed.

(** ** [GET /api/status] *)

(** X21. The status endpoint tests [process.env.API_KEY] at each request
    and, when it is set, hands the request to the middleware, which holds
    the value the variable had when the modules were loaded. So its gate
    lets a request pass exactly when the variable is unset at the request or
    [validateApiKey] accepts the key of the request against the key read at
    load; it is the gate of the other endpoints as long as the variable has
    not changed since, and it never answers 500. In a state within capacity
    the endpoint either answers 200, leaves the state the sweep leaves, and
    reports a queue size between 0 and the reported maximum (or 0 when that
    is negative) and an uptime that is not negative when the clock has not
    gone back since the start; or it refuses the request with 401 or 405
    and leaves the state as it was. *)
Theorem statusHandler_effects apiKey envApiKey serverStartTime packageVersion
    req now now' nowUptime nowStamp q :
  withinCapacity q →
  let '(r, q') :=
    statusHandler apiKey envApiKey serverStartTime packageVersion req
      now now' nowUptime nowStamp q in
  (statusAuth apiKey envApiKey (status_x_api_key req) = None
   ↔ nonEmpty envApiKey = false
     ∨ validateApiKey (status_x_api_key req) apiKey = true)
  ∧ (envApiKey = apiKey →
     statusAuth apiKey envApiKey (status_x_api_key req)
     = checkApiKey apiKey (nonEmpty apiKey) (status_x_api_key req))
  ∧ ((∃ report,
        r = Answered 200 report
        ∧ q' = cleanupExpiredCommands now q
        ∧ 0 ≤ report_queueSize report ≤ Z.max 0 (report_maxQueueSize report)
        ∧ report_maxQueueSize report = maxQueueSize (config q)
        ∧ (serverStartTime ≤ nowUptime → 0 ≤ report_uptime report))
     ∨ (replyStatus r ∈ [401; 405] ∧ q' = q)).
Proof.
  intros Hcap. unfold statusHandler.
  assert (statusAuth apiKey envApiKey (status_x_api_key req) = None
          ↔ nonEmpty envApiKey = false
            ∨ validateApiKey (status_x_api_key req) apiKey = true) as Hpass.
  { unfold statusAuth, validateApiKey, checkApiKey.
    destruct (nonEmpty envApiKey); [|by split; [left|]].
    destruct (nonEmpty apiKey); cbn [negb andb]; [|by split; [right|]].
    destruct (nonEmpty (status_x_api_key req)); cbn [negb andb].
    - destruct (decide (status_x_api_key req = apiKey)) as [Heq|Hne].
      + rewrite bool_decide_eq_false_2 by tauto.
        rewrite bool_decide_eq_true_2 by done. by split; [right|].
      + rewrite bool_decide_eq_true_2 by done.
        rewrite bool_decide_eq_false_2 by done. split; [done | by intros [|]].
    - split; [done | by intros [|]]. }
  assert (envApiKey = apiKey →
          statusAuth apiKey envApiKey (status_x_api_key req)
          = checkApiKey apiKey (nonEmpty apiKey) (status_x_api_key req)) as Hsame.
  { intros ->. unfold statusAuth, checkApiKey. by destruct (nonEmpty apiKey). }
  destruct (statusAuth apiKey envApiKey (status_x_api_key req)) as [e|] eqn:Hauth.
  { split_and!; [done | done |]. right.
    unfold statusAuth in Hauth. destruct (nonEmpty envApiKey); [|done].
    apply checkApiKey_default in Hauth as [He _].
    unfold rejection. cbn [replyStatus]. rewrite He.
    split; [|done]. apply elem_of_cons. by left. }
  case_bool_decide.
  { split_and!; [done | done |]. right. cbn [replyStatus].
    split; [|done]. apply elem_of_cons. right. apply elem_of_cons. by left. }
  cbn [getStatus]. split_and!; [done | done |]. left. eexists.
  split_and!; [done | done | | | done |].
  - cbn [report_queueSize queueSize]. unfold OMap.size. lia.
  - cbn [report_queueSize report_maxQueueSize queueSize status_maxQueueSize].
    rewrite cleanup_config. pose proof (cleanup_length now q).
    unfold withinCapacity, OMap.size in *. lia.
  - cbn [report_uptime]. intros Hclock. apply Z.div_pos; lia.
Qed.

(** The variable set when the modules were loaded and deleted afterwards:
    a request without a key gets the report, while the middleware of the
    other endpoints refuses it. *)
Lemma statusHandler_effects_witness :
  (∃ report,
     (statusHandler (Some "secret") None t0 (Some "1.0.0")
        {| status_method := "GET"; status_x_api_key := None |}
        (t0 + 2500) (t0 + 2500) (t0 + 2500) (t0 + 2500) aliceQueue).1
     = Answered 200 report
     ∧ report_queueSize report = 1 ∧ report_uptime report = 2
     ∧ report_oldestCommandAge report = 2)
  ∧ statusAuth (Some "secret") None None = None
  ∧ checkApiKey (Some "secret") (nonEmpty (Some "secret")) None
    = Some (401, "MISSING_API_KEY",
            "API key is required. Provide X-API-Key header.").
Proof.
  pose proof (statusHandler_effects (Some "secret") None t0 (Some "1.0.0")
                {| status_method := "GET"; status_x_api_key := None |}
                (t0 + 2500) (t0 + 2500) (t0 + 2500) (t0 + 2500) aliceQueue) as H.
  destruct (statusHandler _ _ _ _ _ _ _ _ _ _) as [r q'] eqn:Hs.
  destruct H as (Hpass & _ & [(report & -> & _)|[Hst _]]);
    [vm_compute; discriminate | |].
  - split_and!.
    + exists report. split; [done|]. vm_compute in Hs. by injection Hs as <- _.
    + apply Hpass. by left.
    + reflexivity.
  - exfalso. vm_compute in Hs. injection Hs as <- _. cbn [replyStatus] in Hst.
    repeat (apply elem_of_cons in Hst as [Hst|Hst]; [discriminate|]).
    by apply elem_of_nil in Hst.
Defined.

(** * The order of the store *)

Lemma arrivalSorted_filter (P : string * Command.t → Prop)
    `{!∀ e, Decision (P e)} (m : OMap.t Command.t) :
  arrivalSorted m → arrivalSorted (filter P m).
Proof.
  induction m as [|e m IH]; [done|]. intros [He Hm].
  rewrite filter_cons. destruct (decide (P e)); [|by apply IH].
  split; [|by apply IH]. apply Forall_forall. intros e' He'.
  apply list_elem_of_filter in He' as [_ He'].
  by apply (proj1 (Forall_forall _ _) He).
Qed.

Lemma arrivalSorted_snoc (m : OMap.t Command.t) e :
  arrivalSorted m →
  Forall (λ e' : string * Command.t,
            Command.createdAt e'.2 ≤ Command.createdAt e.2) m →
  arrivalSorted (m ++ [e]).
Proof.
  induction m as [|e0 m IH]; [done|]. intros [He0 Hm] Hall.
  apply Forall_cons in Hall as [Hle Hall]. split; [|by apply IH].
  apply Forall_app. split; [done|]. by apply Forall_singleton.
Qed.

Section arrival_order.
Variable randomUUID : nat → string.
Hypothesis randomUUID_inj : Inj (=) (=) randomUUID.

(** Under a clock that does not go back between submissions, a run keeps
    the store sorted by [createdAt]. *)
Lemma run_arrivalSorted tr w :
  wf_world randomUUID w →
  arrivalSorted (commands (queue w)) →
  nondecreasing (addTimes tr) →
  (∀ e t, e ∈ commands (queue w) → t ∈ addTimes tr →
          Command.createdAt e.2 ≤ t) →
  arrivalSorted (commands (queue (run randomUUID tr w).2)).
Proof.
  revert w. induction tr as [|e tr IH]; intros w Hw Hsorted Hclock Hbound; [done|].
  rewrite run_cons. cbn [snd].
  pose proof (step_wf randomUUID w e Hw) as Hw'.
  assert (∀ P (Hdec : ∀ x, Decision (P x)),
            addTimes (e :: tr) = addTimes tr →
            commands (queue (step randomUUID w e).2) = filter P (commands (queue w)) →
            arrivalSorted (commands (queue (run randomUUID tr (step randomUUID w e).2).2)))
    as Hfilter.
  { intros P Hdec Htimes Hcmds. rewrite Htimes in Hclock, Hbound.
    apply IH; [done | | done |].
    - rewrite Hcmds. by apply arrivalSorted_filter.
    - intros e' t He' Ht. rewrite Hcmds in He'.
      apply list_elem_of_filter in He' as [_ He']. by apply Hbound. }
  destruct e as [type player timestamp now|now|cid success error|now now'|now].
  - cbn [addTimes omap list_omap] in Hclock, Hbound. fold (addTimes tr) in *.
    destruct Hclock as [Hnow Hclock].
    destruct (isDuplicateCommand player now (queue w)) eqn:Hdup;
      [|destruct (decide (OMap.size (commands (queue w))
                          < maxQueueSize (config (queue w)))) as [Hroom|Hfull]].
    + apply IH; [done | | done |]; cbn [step] in *; unfold addCommand in *;
        rewrite Hdup in *; cbn [snd queue]; [done|].
      intros e' t He' Ht. apply Hbound; [done|]. apply elem_of_cons. by right.
    + rewrite step_add_accepts in * by done. cbn [snd] in *. cbn [queue commands] in *.
      rewrite omap_set_fresh in * by (by apply next_uuid_fresh).
      apply IH; [done | | done |]; cbn [queue commands].
      * apply arrivalSorted_snoc; [done|]. apply Forall_forall. intros e' He'.
        cbn [snd submittedCommand Command.createdAt sub_now].
        apply Hbound; [done|]. apply elem_of_cons. by left.
      * intros e' t [He'| ->%list_elem_of_singleton]%elem_of_app Ht.
        -- apply Hbound; [done|]. apply elem_of_cons. by right.
        -- cbn [snd submittedCommand Command.createdAt sub_now].
           by apply (proj1 (Forall_forall _ _) Hnow).
    + apply IH; [done | | done |]; cbn [step] in *; unfold addCommand in *;
        rewrite Hdup in *; rewrite bool_decide_eq_true_2 in * by lia;
        cbn [snd queue]; [done|].
      intros e' t He' Ht. apply Hbound; [done|]. apply elem_of_cons. by right.
  - eapply (Hfilter _ _ eq_refl). cbn [step].
    pose proof (pollCommand_state now (queue w)) as H.
    destruct (pollCommand now (queue w)) as [r q']. cbn in H. subst q'.
    cbn [snd queue]. apply cleanup_commands, Hw.
  - eapply (Hfilter _ _ eq_refl). cbn [step].
    pose proof (completeCommand_commands cid success error (queue w)) as H.
    destruct (completeCommand _ _ _ _) as [r q']. cbn [snd queue] in *. exact H.
  - eapply (Hfilter _ _ eq_refl). cbn [step getStatus snd queue].
    apply cleanup_commands, Hw.
  - eapply (Hfilter _ _ eq_refl). cbn [step snd queue].
    apply cleanup_commands, Hw.
Qed.

(** X22. Under a generator of pairwise distinct identifiers and a clock
    that does not go back from one submission to the next, the store is
    sorted by [createdAt] after every run from a new queue, whatever calls
    the run is made of; so the command a poll returns is, among the commands
    the poll leaves pending, one of least [createdAt]. *)
Theorem poll_returns_the_oldest env tr :
  nondecreasing (addTimes tr) →
  let w := (run randomUUID tr (initWorld env)).2 in
  arrivalSorted (commands (queue w))
  ∧ ∀ now pc,
      (pollCommand now (queue w)).1 = HasCommand pc →
      ∃ c, OMap.get (polled_id pc) (commands (queue w)) = Some c
           ∧ pc = snapshot c
           ∧ ∀ k' c', (k', c') ∈ commands (pollCommand now (queue w)).2 →
                      Command.createdAt c ≤ Command.createdAt c'.
Proof.
  intros Hclock w.
  assert (wf_world randomUUID w) as Hw by apply run_wf, initWorld_wf.
  assert (arrivalSorted (commands (queue w))) as Hsorted.
  { apply run_arrivalSorted; [apply initWorld_wf | done | done |].
    intros e t He. by apply elem_of_nil in He. }
  split; [done|]. intros now pc Hpoll.
  pose proof (wf_world_queue _ _ Hw) as Hq.
  rewrite pollCommand_result in Hpoll. rewrite pollCommand_state.
  assert (arrivalSorted (commands (cleanupExpiredCommands now (queue w))))
    as Hsorted'.
  { rewrite cleanup_commands by apply Hq. by apply arrivalSorted_filter. }
  destruct (commands (cleanupExpiredCommands now (queue w))) as [|[k c] m] eqn:Hcmds;
    [done|].
  injection Hpoll as <-. cbn [head snd snapshot polled_id].
  assert ((k, c) ∈ commands (queue w)) as Hin.
  { assert ((k, c) ∈ commands (cleanupExpiredCommands now (queue w))) as Hin
      by (rewrite Hcmds; apply elem_of_cons; by left).
    by apply cleanup_elem in Hin as [? _]; [|apply Hq]. }
  exists c. rewrite (wf_ids _ Hq k c Hin). split_and!.
  - apply omap_elem_get; [apply Hq | done].
  - done.
  - destruct Hsorted' as [Hmin _].
    intros k' c' [[= -> ->]|Hin']%elem_of_cons; [lia|].
    by apply (proj1 (Forall_forall _ _) Hmin (k', c')).
Qed.
End arrival_order.

Lemma poll_returns_the_oldest_witness :
  arrivalSorted
    (commands (queue (run sampleUUID (submissions threeSubmissions)
                        (initWorld defaultEnv)).2)).
Proof.
  apply (poll_returns_the_oldest sampleUUID sampleUUID_inj defaultEnv
           (submissions threeSubmissions)).
  vm_compute. repeat split; repeat constructor; discriminate.
Defined.
